(** * A telemetry bridge: signed session tokens, a latest-record store per
    device and a fan-out of server-sent events

    Shallow embedding of [server.js].  The program is a single-threaded
    event loop: every handler runs to completion, so a handler is a function
    from the process state to the next process state.

    - A JS string is the [string] of its UTF-8 bytes, so [Buffer.from(s)]
      is the identity; [buf.toString("utf8")], which replaces what is
      ill formed, is a service of the runtime, and strings compare by their
      UTF-16 code units ([utf16_le]).
    - JS numbers are the integral ones ([Z]): [Date.now()] and the [exp]
      field written at login are integral milliseconds.
    - A thrown exception is explicit ([completion]); [try]/[catch] is
      [try_catch].
    - What Node provides ([crypto], [Buffer], [JSON], [trim], the coercions
      of [>]) is the interface [Runtime], which [Node] implements; the
      environment variables are [Config]. *)

From Stdlib Require Import ZArith Strings.String Strings.Ascii Bool List Lia.
From Stdlib Require Import DecimalString.
From stdpp Require Import base tactics option list strings sorting.
Import ListNotations.

#[local] Set Warnings "-register-all".
Local Open Scope Z_scope.

(** ** JS values *)

(** What [JSON.parse] returns and [JSON.stringify] accepts.  An object is the
    list of its own properties in insertion order. *)
Inductive json : Type :=
  | JNull
  | JBool (b : bool)
  | JNum (n : Z)
  | JStr (s : string)
  | JArr (items : list json)
  | JObj (props : list (string * json)).

(** A JS value that may be [undefined]. *)
Definition jsval : Type := option json.
Definition undefined : jsval := None.

Inductive js_error : Type := SyntaxError | TypeError | RangeError.

(** The outcome of evaluating an expression: a value, or a thrown error. *)
Inductive completion (A : Type) : Type :=
  | Normal (a : A)
  | Throw (e : js_error).
Arguments Normal {A} a.
Arguments Throw {A} e.

Definition and_then {A B} (c : completion A) (k : A -> completion B) : completion B :=
  match c with
  | Normal a => k a
  | Throw e => Throw e
  end.

Definition try_catch {A} (body : completion A) (handler : js_error -> completion A)
  : completion A :=
  match body with
  | Normal a => Normal a
  | Throw e => handler e
  end.

Notation "'let!' x ':=' c 'in' k" := (and_then c (fun x => k))
  (at level 10, x name, c at level 100, k at level 200).

(** [!v] is [negb (truthy v)]. *)
Definition truthy (v : jsval) : bool :=
  match v with
  | None => false
  | Some JNull => false
  | Some (JBool b) => b
  | Some (JNum n) => negb (n =? 0)%Z
  | Some (JStr s) => negb (s =? "")%string
  | Some (JArr _) => true
  | Some (JObj _) => true
  end.

Fixpoint own_property (key : string) (props : list (string * json)) : jsval :=
  match props with
  | [] => undefined
  | (k, v) :: rest => if (k =? key)%string then Some v else own_property key rest
  end.

(** [obj.key] for a key that no prototype defines (such as [exp] and [u]):
    a [TypeError] on [null], the own property of an object, and [undefined]
    on booleans, numbers, strings and arrays. *)
Definition get_property (obj : json) (key : string) : completion jsval :=
  match obj with
  | JNull => Throw TypeError
  | JObj props => Normal (own_property key props)
  | _ => Normal undefined
  end.

(** ** Strings *)

(** [s.split(sep)] for a separator of one character: never empty, and
    [String.length] parts more than occurrences of [sep]. *)
Fixpoint split (sep : ascii) (s : string) : list string :=
  match s with
  | EmptyString => [""]
  | String c rest =>
      if (c =? sep)%char then "" :: split sep rest
      else match split sep rest with
           | part :: parts => String c part :: parts
           | [] => [String c ""]
           end
  end.

Fixpoint occurs (sep : ascii) (s : string) : bool :=
  match s with
  | EmptyString => false
  | String c rest => (c =? sep)%char || occurs sep rest
  end.

(** *** Code points and code units *)

(** The decoder of UTF-8 between two bytes: nothing pending, or a code
    point begun, the number of bytes it still needs, and the range the next
    byte must be in. *)
Record utf8_pending : Type := {
  begun : Z;
  needed : nat;
  lower : Z;
  upper : Z
}.

(** A byte met with nothing pending: the code point it is, or what it
    begins.  A byte that begins nothing is U+FFFD. *)
Definition utf8_lead (b : Z) : Z + utf8_pending :=
  if b <? 128 then inl b
  else if (194 <=? b) && (b <=? 223) then
    inr {| begun := b - 192; needed := 1; lower := 128; upper := 191 |}
  else if (224 <=? b) && (b <=? 239) then
    inr {| begun := b - 224; needed := 2;
           lower := if b =? 224 then 160 else 128;
           upper := if b =? 237 then 159 else 191 |}
  else if (240 <=? b) && (b <=? 244) then
    inr {| begun := b - 240; needed := 3;
           lower := if b =? 240 then 144 else 128;
           upper := if b =? 244 then 143 else 191 |}
  else inl 65533.

(** The code points of a sequence of bytes; what is ill formed is read as
    U+FFFD, and the byte that ended it is read again. *)
Fixpoint utf8_code_points (pending : option utf8_pending) (bs : list Z) : list Z :=
  match bs with
  | [] => match pending with Some _ => [65533] | None => [] end
  | b :: rest =>
      let fresh :=
        match utf8_lead b with
        | inl cp => cp :: utf8_code_points None rest
        | inr p => utf8_code_points (Some p) rest
        end in
      match pending with
      | None => fresh
      | Some p =>
          if (lower p <=? b) && (b <=? upper p) then
            let cp := begun p * 64 + (b - 128) in
            match needed p with
            | S (S n) =>
                utf8_code_points
                  (Some {| begun := cp; needed := S n; lower := 128; upper := 191 |}) rest
            | _ => cp :: utf8_code_points None rest
            end
          else 65533 :: fresh
      end
  end.

Definition code_points (s : string) : list Z :=
  utf8_code_points None (map (λ c, Z.of_N (N_of_ascii c)) (list_ascii_of_string s)).

(** The code points a text is made of: all but the surrogates. *)
Definition scalar_value (cp : Z) : Prop :=
  0 ≤ cp < 55296 ∨ 57344 ≤ cp < 1114112.

(** The UTF-16 code units of a code point. *)
Definition utf16_units (cp : Z) : list Z :=
  if cp <? 65536 then [cp]
  else [55296 + (cp - 65536) / 1024; 56320 + (cp - 65536) mod 1024].

(** The code units of a JS string. *)
Definition code_units (s : string) : list Z :=
  concat (map utf16_units (code_points s)).

Fixpoint units_leb (a b : list Z) : bool :=
  match a, b with
  | [], _ => true
  | _ :: _, [] => false
  | x :: a, y :: b =>
      if x <? y then true else if y <? x then false else units_leb a b
  end.

(** The order of [Array.prototype.sort()] without a comparator: by code
    units. *)
Definition utf16_le (a b : string) : Prop :=
  units_leb (code_units a) (code_units b) = true.

#[global] Instance utf16_le_dec : RelDecision utf16_le.
Proof. intros a b. unfold utf16_le. apply _. Defined.

(** ** [Map] and [Set]: keyed collections that keep insertion order *)

Section Collections.
Context {K V : Type} `{EqDecision K}.

Fixpoint Map_get (k : K) (m : list (K * V)) : option V :=
  match m with
  | [] => None
  | (k', v) :: rest => if decide (k' = k) then Some v else Map_get k rest
  end.

(** [m.set(k, v)]: an existing key keeps its position, a new one goes last. *)
Fixpoint Map_set (k : K) (v : V) (m : list (K * V)) : list (K * V) :=
  match m with
  | [] => [(k, v)]
  | (k', v') :: rest =>
      if decide (k' = k) then (k, v) :: rest else (k', v') :: Map_set k v rest
  end.

Definition Map_has (k : K) (m : list (K * V)) : bool :=
  match Map_get k m with Some _ => true | None => false end.

Fixpoint Map_delete (k : K) (m : list (K * V)) : list (K * V) :=
  match m with
  | [] => []
  | (k', v) :: rest =>
      if decide (k' = k) then rest else (k', v) :: Map_delete k rest
  end.

Definition Map_keys (m : list (K * V)) : list K := map fst m.

Definition Set_has (x : K) (s : list K) : bool := bool_decide (x ∈ s).

Definition Set_add (x : K) (s : list K) : list K :=
  if Set_has x s then s else s ++ [x].

Fixpoint Set_delete (x : K) (s : list K) : list K :=
  match s with
  | [] => []
  | y :: rest => if decide (y = x) then rest else y :: Set_delete x rest
  end.
End Collections.

(** ** What the program is given *)

(** The services of Node the program calls. *)
Class Runtime : Type := {
  (** [crypto.createHmac("sha256", key).update(msg).digest("base64url")] *)
  hmac_sha256_base64url : string -> string -> string;
  (** [Buffer.from(s, "utf8").toString("base64url")] *)
  base64url_encode : string -> string;
  (** [Buffer.from(s, "base64url").toString("utf8")] *)
  base64url_decode : string -> string;
  JSON_stringify : json -> string;
  (** [JSON.parse] throws a [SyntaxError] on a malformed document. *)
  JSON_parse : string -> completion json;
  (** [n > v] for an operand [v] that is not a number: the outcome of the
      coercions of the relational operator. *)
  gt_coerced : Z -> json -> bool;
  (** [s.trim()] *)
  String_trim : string -> string;
  (** [buf.toString("utf8")], for a buffer of the bytes given. *)
  Buffer_toString : string -> string
}.

(** The environment variables, with their defaults applied. *)
Class Config : Type := {
  MQTT_URL : string;
  TOPIC_PREFIX : string;
  DASH_USER : string;
  DASH_PASS : string;
  AUTH_SECRET : string
}.

Definition LF : string := String "010"%char "".

(** [a > b] for a number [a]. *)
Definition js_gt `{Runtime} (a : Z) (b : jsval) : bool :=
  match b with
  | Some (JNum n) => (n <? a)%Z
  | Some v => gt_coerced a v
  | None => false
  end.

(** [crypto.timingSafeEqual(a, b)] throws a [RangeError] on buffers of
    different lengths and otherwise compares them byte by byte. *)
Definition timingSafeEqual (a b : list ascii) : completion bool :=
  if (length a =? length b)%nat then Normal (bool_decide (a = b))
  else Throw RangeError.

Definition Buffer_from (s : string) : list ascii := list_ascii_of_string s.

(** ** AUTH: the signed cookie *)

Section Auth.
Context `{Runtime} `{Config}.

Definition b64url (str : string) : string := base64url_encode str.

Definition signToken (payloadObj : json) : string :=
  let payload := b64url (JSON_stringify payloadObj) in
  let sig := hmac_sha256_base64url AUTH_SECRET payload in
  payload +:+ "." +:+ sig.

(** [null] is [None].  The argument is the value of a cookie (a string),
    so [typeof token !== "string"] is false and [!token] holds of the
    empty string only. *)
Definition verifyToken (now : Z) (token : string) : completion (option json) :=
  if (token =? "")%string then Normal None else
  let parts := split "."%char token in
  match parts with
  | [payload; sig] =>
      let expected := hmac_sha256_base64url AUTH_SECRET payload in
      let a := Buffer_from sig in
      let b := Buffer_from expected in
      if negb (length a =? length b)%nat then Normal None else
      let! same := timingSafeEqual a b in
      if negb same then Normal None else
      try_catch
        (let! obj := JSON_parse (base64url_decode payload) in
         let! exp := get_property obj "exp" in
         if negb (truthy exp) || js_gt now exp then Normal None
         else Normal (Some obj))
        (fun _ => Normal None)
  | _ => Normal None
  end.

(** The object signed at login. *)
Definition session (user : string) (exp : Z) : json :=
  JObj [("u", JStr user); ("exp", JNum exp)].

Definition TWELVE_HOURS : Z := 12 * 60 * 60 * 1000.

(** A token for [identity] that expires [ttl] milliseconds after [now]. *)
Definition issue (now : Z) (identity : string) (ttl : Z) : string :=
  signToken (session identity (now + ttl)).

(** [POST /login]: the token put in the cookie, if the credentials match. *)
Definition login (now : Z) (user pass : string) : option string :=
  if (user =? DASH_USER)%string && (pass =? DASH_PASS)%string
  then Some (issue now user TWELVE_HOURS)
  else None.

Inductive auth_outcome : Type :=
  | Unauthorized401
  | RedirectLogin
  | Next (user : json).

(** What [requireAuth] does once [getCookie] has returned the value of the
    cookie ([""] when absent), given whether the path starts with [/api/].
    The whole function is [requireAuth_request]. *)
Definition requireAuth (now : Z) (token : string) (api_path : bool)
  : completion auth_outcome :=
  let! data := verifyToken now token in
  match data with
  | None => Normal (if api_path then Unauthorized401 else RedirectLogin)
  | Some user => Normal (Next user)
  end.
End Auth.

(** ** MQTT bridge *)

(** [{ ts, topic, raw, parsed }] *)
Record telemetry : Type := {
  ts : Z;
  topic : string;
  raw : string;
  parsed : json
}.

Definition telemetry_json (r : telemetry) : json :=
  JObj [("ts", JNum (ts r)); ("topic", JStr (topic r));
        ("raw", JStr (raw r)); ("parsed", parsed r)].

(** The response object [res] of one request to [/api/stream/:device], the
    push channel of a subscriber.  [res.write] on a channel whose connection
    is lost fails: the chunk goes nowhere and nothing is thrown. *)
Record response : Type := {
  res_device : string;           (* [device], as the [close] handler captured it *)
  res_headers : list (string * string);
  res_written : list string;     (* the chunks written, oldest first *)
  res_writable : bool
}.

Definition res_setHeader (name value : string) (r : response) : response :=
  {| res_device := res_device r;
     res_headers := Map_set name value (res_headers r);
     res_written := res_written r;
     res_writable := res_writable r |}.

Definition res_write (chunk : string) (r : response) : response :=
  if res_writable r then
    {| res_device := res_device r;
       res_headers := res_headers r;
       res_written := res_written r ++ [chunk];
       res_writable := true |}
  else r.

Definition res_break (r : response) : response :=
  {| res_device := res_device r;
     res_headers := res_headers r;
     res_written := res_written r;
     res_writable := false |}.

(** The process state: the two module-level maps, and the heap of response
    objects, which the sets of [sseByDevice] refer to by address. *)
Record state : Type := {
  latestByDevice : list (string * telemetry);
  sseByDevice : list (string * list nat);
  responses : list response
}.

Definition initial : state :=
  {| latestByDevice := []; sseByDevice := []; responses := [] |}.

Inductive http_reply : Type :=
  | ReplyJson (status : nat) (body : json)
  | ReplyStream (res : nat).

(** The body of the reply of [GET /api/state]. *)
Record bridge_status : Type := {
  mqtt_url : string;
  mqtt_connected : bool;
  prefix : string;
  devices : list string
}.

Section Bridge.
Context `{Runtime} `{Config}.

Definition getDeviceFromTopic (topic : string) : option string :=
  let parts := split "/"%char topic in
  if (length parts <? 3)%nat then None
  else if negb (nth 0 parts "" =? TOPIC_PREFIX)%string then None
  else Some (nth 1 parts "").

Definition sseSend (res : nat) (event : string) (obj : json)
    (heap : list response) : list response :=
  let heap := alter (res_write ("event: " +:+ event +:+ LF)) res heap in
  alter (res_write ("data: " +:+ JSON_stringify obj +:+ LF +:+ LF)) res heap.

(** [mqttClient.on("message", ...)], run at time [now], for a [payloadBuf]
    of the bytes [payload]. *)
Definition on_message (now : Z) (topic payload : string) (st : state) : state :=
  match getDeviceFromTopic topic with
  | None => st
  | Some device =>
      if (device =? "")%string then st else
      let raw := Buffer_toString payload in
      let parsed := match JSON_parse raw with
                    | Normal v => v
                    | Throw _ => JNull
                    end in
      let record := {| ts := now; topic := topic; raw := raw; parsed := parsed |} in
      let latest := Map_set device record (latestByDevice st) in
      let heap :=
        match Map_get device (sseByDevice st) with
        | Some clients =>
            fold_left (fun heap res => sseSend res "telemetry" (telemetry_json record) heap)
                      clients (responses st)
        | None => responses st
        end in
      {| latestByDevice := latest; sseByDevice := sseByDevice st; responses := heap |}
  end.

(** [GET /api/devices] *)
Definition api_devices (st : state) : list string :=
  merge_sort utf16_le (Map_keys (latestByDevice st)).

(** [GET /api/state], given [!!mqttClient.connected]. *)
Definition api_state (connected : bool) (st : state) : bridge_status :=
  {| mqtt_url := MQTT_URL;
     mqtt_connected := connected;
     prefix := TOPIC_PREFIX;
     devices := Map_keys (latestByDevice st) |}.

Definition hello (device : string) (last : option telemetry) : json :=
  JObj [("device", JStr device);
        ("hasLast", JBool (match last with Some _ => true | None => false end));
        ("last", match last with Some r => telemetry_json r | None => JNull end)].

(** [GET /api/stream/:device], for a request that passed [requireAuth].
    The response object of the request is a new one, at the next free
    address of the heap. *)
Definition api_stream (param : string) (st : state) : state * http_reply :=
  let device := String_trim param in
  if (device =? "")%string
  then (st, ReplyJson 400 (JObj [("error", JStr "device required")]))
  else
    let res := length (responses st) in
    let fresh := {| res_device := device; res_headers := [];
                    res_written := []; res_writable := true |} in
    let fresh := res_setHeader "Content-Type" "text/event-stream" fresh in
    let fresh := res_setHeader "Cache-Control" "no-cache" fresh in
    let fresh := res_setHeader "Connection" "keep-alive" fresh in
    let heap := responses st ++ [fresh] in
    let last := Map_get device (latestByDevice st) in
    let heap := sseSend res "hello" (hello device last) heap in
    let sse := sseByDevice st in
    let sse := if negb (Map_has device sse) then Map_set device [] sse else sse in
    let sse := match Map_get device sse with
               | Some set => Map_set device (Set_add res set) sse
               | None => sse
               end in
    ({| latestByDevice := latestByDevice st; sseByDevice := sse; responses := heap |},
     ReplyStream res).

(** The [close] handler of the request whose response is [res]. *)
Definition on_close (res : nat) (st : state) : state :=
  match responses st !! res with
  | None => st
  | Some r =>
      let device := res_device r in
      match Map_get device (sseByDevice st) with
      | None => st
      | Some set =>
          let set := Set_delete res set in
          let sse := Map_set device set (sseByDevice st) in
          let sse := if (length set =? 0)%nat then Map_delete device sse else sse in
          {| latestByDevice := latestByDevice st; sseByDevice := sse;
             responses := responses st |}
      end
  end.

(** One turn of the event loop: a message of the bus, a request for a
    stream, or the [close] event of a request.  Between turns a connection
    may be lost, which only makes the writes to its response fail. *)
Inductive event : Type :=
  | Message (now : Z) (topic payload : string)
  | Subscribe (param : string)
  | ConnectionLost (res : nat)
  | Close (res : nat).

Definition handle (ev : event) (st : state) : state :=
  match ev with
  | Message now topic payload => on_message now topic payload st
  | Subscribe param => fst (api_stream param st)
  | ConnectionLost res =>
      {| latestByDevice := latestByDevice st; sseByDevice := sseByDevice st;
         responses := alter res_break res (responses st) |}
  | Close res => on_close res st
  end.

Definition run (evs : list event) (st : state) : state :=
  fold_left (fun st ev => handle ev st) evs st.

Inductive reachable : state -> Prop :=
  | reachable_initial : reachable initial
  | reachable_step ev st : reachable st -> reachable (handle ev st).
End Bridge.

(** ** Node: the services of [Runtime], computed

    Base64url, UTF-8, HMAC-SHA-256 and JSON as Node computes them, so that
    the program can be run on concrete requests and messages.  It is used
    on the documents of [json] only, and differs from Node outside them:
    a number with a fraction or an exponent, and an escaped surrogate, are
    rejected here, where Node accepts them; an integer beyond 2^53 is kept
    exact, where Node rounds it; the members of an object stay as written,
    where Node lists the keys that are array indices first; and a string
    is read as a number only when it is a decimal integer, so that a
    fraction, an exponent or a radix prefix makes it NaN. *)

Module Node.

Definition byte_of (c : ascii) : Z := Z.of_N (N_of_ascii c).
Definition char_of (b : Z) : ascii := ascii_of_N (Z.to_N b).
Definition bytes_of (s : string) : list Z := map byte_of (list_ascii_of_string s).
Definition text_of (bs : list Z) : string := string_of_list_ascii (map char_of bs).

(** *** base64url, unpadded *)

Definition alphabet : string :=
  "ABCDEFGHIJKLMNOPQRSTUVWXYZabcdefghijklmnopqrstuvwxyz0123456789-_".

Definition digit (n : Z) : ascii :=
  match String.get (Z.to_nat n) alphabet with
  | Some c => c
  | None => "A"%char
  end.

Fixpoint encode (bs : list Z) : string :=
  match bs with
  | a :: b :: c :: rest =>
      String (digit (a / 4))
        (String (digit (a mod 4 * 16 + b / 16))
           (String (digit (b mod 16 * 4 + c / 64))
              (String (digit (c mod 64)) (encode rest))))
  | [a; b] =>
      String (digit (a / 4))
        (String (digit (a mod 4 * 16 + b / 16))
           (String (digit (b mod 16 * 4)) ""))
  | [a] => String (digit (a / 4)) (String (digit (a mod 4 * 16)) "")
  | [] => ""
  end.

Fixpoint position (c : ascii) (s : string) (i : Z) : option Z :=
  match s with
  | EmptyString => None
  | String d rest => if (d =? c)%char then Some i else position c rest (i + 1)
  end.

(** The decoder reads both alphabets, stops at the first [=] and skips
    every other character. *)
Definition sextet (c : ascii) : option Z :=
  if (c =? "+")%char then Some 62
  else if (c =? "/")%char then Some 63
  else position c alphabet 0.

Fixpoint sextets (s : string) : list Z :=
  match s with
  | EmptyString => []
  | String c rest =>
      if (c =? "=")%char then []
      else
        match sextet c with
        | Some v => v :: sextets rest
        | None => sextets rest
        end
  end.

Fixpoint octets (vs : list Z) : list Z :=
  match vs with
  | a :: b :: c :: d :: rest =>
      (a * 4 + b / 16) :: (b mod 16 * 16 + c / 4) :: (c mod 4 * 64 + d) :: octets rest
  | [a; b; c] => [a * 4 + b / 16; b mod 16 * 16 + c / 4]
  | [a; b] => [a * 4 + b / 16]
  | _ => []
  end.

Definition decode (s : string) : list Z := octets (sextets s).

(** *** UTF-8 *)

(** The bytes of a code point. *)
Definition utf8_bytes (cp : Z) : list Z :=
  if cp <? 128 then [cp]
  else if cp <? 2048 then [192 + cp / 64; 128 + cp mod 64]
  else if cp <? 65536 then
    [224 + cp / 4096; 128 + cp / 64 mod 64; 128 + cp mod 64]
  else
    [240 + cp / 262144; 128 + cp / 4096 mod 64; 128 + cp / 64 mod 64;
     128 + cp mod 64].

(** The text made of a sequence of code points. *)
Definition utf8_encode (cps : list Z) : string :=
  text_of (concat (map utf8_bytes cps)).

(** [buf.toString("utf8")]: the text of the code points read. *)
Definition to_utf8_string (buf : string) : string :=
  utf8_encode (code_points buf).

(** *** SHA-256 (FIPS 180-4) and HMAC (RFC 2104) *)

Definition word (x : Z) : Z := x mod 2 ^ 32.
Definition rotr (n x : Z) : Z := Z.lor (Z.shiftr x n) (word (Z.shiftl x (32 - n))).
Definition xor3 (x y z : Z) : Z := Z.lxor (Z.lxor x y) z.
Definition choose (x y z : Z) : Z :=
  Z.lxor (Z.land x y) (Z.land (Z.lxor x (2 ^ 32 - 1)) z).
Definition majority (x y z : Z) : Z := xor3 (Z.land x y) (Z.land x z) (Z.land y z).
Definition Sum0 (x : Z) : Z := xor3 (rotr 2 x) (rotr 13 x) (rotr 22 x).
Definition Sum1 (x : Z) : Z := xor3 (rotr 6 x) (rotr 11 x) (rotr 25 x).
Definition sum0 (x : Z) : Z := xor3 (rotr 7 x) (rotr 18 x) (Z.shiftr x 3).
Definition sum1 (x : Z) : Z := xor3 (rotr 17 x) (rotr 19 x) (Z.shiftr x 10).

Definition is_prime (n : Z) : bool :=
  forallb (fun d => negb (n mod Z.of_nat d =? 0)) (seq 2 (Z.to_nat n - 2)).

(** The first 64 primes. *)
Definition primes : list Z :=
  Eval vm_compute in filter (fun n => is_prime n) (map Z.of_nat (seq 2 310)).

(** The integral part of the cube root of [n], bit by bit. *)
Fixpoint cube_root (bits : nat) (r n : Z) : Z :=
  match bits with
  | O => r
  | S i =>
      let r' := r + 2 ^ Z.of_nat i in
      cube_root i (if r' * r' * r' <=? n then r' else r) n
  end.

(** The fractional parts of the cube roots of the primes, 32 bits each. *)
Definition round_constants : list Z :=
  Eval vm_compute in map (fun p => word (cube_root 40 0 (p * 2 ^ 96))) primes.

(** The fractional parts of the square roots of the first 8 primes. *)
Definition initial_hash : list Z :=
  Eval vm_compute in map (fun p => word (Z.sqrt (p * 2 ^ 64))) (firstn 8 primes).

Definition big_endian (width : nat) (x : Z) : list Z :=
  map (fun i => (x / 2 ^ (8 * Z.of_nat i)) mod 256) (rev (seq 0 width)).

Definition pad (msg : list Z) : list Z :=
  let len := Z.of_nat (length msg) in
  let zeros := Z.to_nat ((55 - len) mod 64) in
  msg ++ [128] ++ repeat 0 zeros ++ big_endian 8 (8 * len).

Fixpoint words (n : nat) (bs : list Z) : list Z :=
  match n, bs with
  | S n', a :: b :: c :: d :: rest =>
      (((a * 256 + b) * 256 + c) * 256 + d) :: words n' rest
  | _, _ => []
  end.

Definition at_ (ws : list Z) (i : nat) : Z := nth i ws 0.

Fixpoint schedule (n : nat) (ws : list Z) : list Z :=
  match n with
  | O => ws
  | S n' =>
      let t := length ws in
      let w := word (sum1 (at_ ws (t - 2)) + at_ ws (t - 7)
                     + sum0 (at_ ws (t - 15)) + at_ ws (t - 16)) in
      schedule n' (ws ++ [w])
  end.

Definition round (h : list Z) (kw : Z * Z) : list Z :=
  match h with
  | [a; b; c; d; e; f; g; hh] =>
      let t1 := hh + Sum1 e + choose e f g + fst kw + snd kw in
      let t2 := Sum0 a + majority a b c in
      [word (t1 + t2); a; b; c; word (d + t1); e; f; g]
  | _ => h
  end.

Definition compress (h : list Z) (block : list Z) : list Z :=
  let ws := schedule 48 (words 16 block) in
  let h' := fold_left round (combine round_constants ws) h in
  map (fun xy => word (fst xy + snd xy)) (combine h h').

Fixpoint blocks (n : nat) (h : list Z) (bs : list Z) : list Z :=
  match n with
  | O => h
  | S n' => blocks n' (compress h (firstn 64 bs)) (skipn 64 bs)
  end.

Definition sha256 (msg : list Z) : list Z :=
  let padded := pad msg in
  concat (map (big_endian 4) (blocks (length padded / 64) initial_hash padded)).

Definition hmac_sha256 (key msg : list Z) : list Z :=
  let key := if (64 <? length key)%nat then sha256 key else key in
  let key := key ++ repeat 0 (64 - length key) in
  let inner := map (Z.lxor 54) key in
  let outer := map (Z.lxor 92) key in
  sha256 (outer ++ sha256 (inner ++ msg)).

(** *** JSON *)

Definition hex_digit (n : Z) : ascii :=
  match String.get (Z.to_nat n) "0123456789abcdef" with
  | Some c => c
  | None => "0"%char
  end.

Definition dquote : ascii := "034"%char.
Definition backslash : ascii := "092"%char.
Definition esc (c : string) : string := String backslash c.

Definition escape (c : ascii) : string :=
  let b := byte_of c in
  if (c =? dquote)%char then esc (String dquote "")
  else if (c =? backslash)%char then esc (String backslash "")
  else if b =? 8 then esc "b"
  else if b =? 9 then esc "t"
  else if b =? 10 then esc "n"
  else if b =? 12 then esc "f"
  else if b =? 13 then esc "r"
  else if b <? 32 then
    esc "u00" +:+ String (hex_digit (b / 16)) (String (hex_digit (b mod 16)) "")
  else String c "".

Fixpoint escaped (s : string) : string :=
  match s with
  | EmptyString => ""
  | String c rest => escape c +:+ escaped rest
  end.

Definition quote (s : string) : string :=
  String dquote (escaped s +:+ String dquote "").

Definition decimal (n : Z) : string :=
  NilZero.string_of_int (Z.to_int n).

Fixpoint join (sep : string) (parts : list string) : string :=
  match parts with
  | [] => ""
  | [part] => part
  | part :: rest => part +:+ sep +:+ join sep rest
  end.

Fixpoint stringify (v : json) : string :=
  match v with
  | JNull => "null"
  | JBool true => "true"
  | JBool false => "false"
  | JNum n => decimal n
  | JStr s => quote s
  | JArr items => "[" +:+ join "," (map stringify items) +:+ "]"
  | JObj props =>
      "{" +:+ join "," (map (fun kv => quote (fst kv) +:+ ":" +:+ stringify (snd kv)) props)
          +:+ "}"
  end.

Definition is_ws (c : ascii) : bool :=
  let b := byte_of c in
  (b =? 32) || (b =? 9) || (b =? 10) || (b =? 13).

Fixpoint skip_ws (s : string) : string :=
  match s with
  | String c rest => if is_ws c then skip_ws rest else s
  | EmptyString => s
  end.

Definition is_digit (c : ascii) : bool :=
  let b := byte_of c in
  (48 <=? b) && (b <=? 57).

Fixpoint digits (acc : Z) (s : string) : Z * string :=
  match s with
  | String c rest =>
      if is_digit c then digits (acc * 10 + (byte_of c - 48)) rest else (acc, s)
  | EmptyString => (acc, s)
  end.

(** An integer literal: no leading zero, and no fraction or exponent. *)
Definition number (s : string) : option (Z * string) :=
  let (negative, s) :=
    match s with
    | String c rest => if (c =? "-")%char then (true, rest) else (false, s)
    | EmptyString => (false, s)
    end in
  match s with
  | String c rest =>
      if is_digit c then
        let (n, rest) := if (c =? "0")%char then (0, rest) else digits 0 s in
        let n := if negative : bool then - n else n in
        match rest with
        | String d _ =>
            if is_digit d || (d =? ".")%char || (d =? "e")%char || (d =? "E")%char
            then None else Some (n, rest)
        | EmptyString => Some (n, rest)
        end
      else None
  | EmptyString => None
  end.

Definition hex_value (c : ascii) : option Z :=
  let b := byte_of c in
  if (48 <=? b) && (b <=? 57) then Some (b - 48)
  else if (97 <=? b) && (b <=? 102) then Some (b - 87)
  else if (65 <=? b) && (b <=? 70) then Some (b - 55)
  else None.

(** The UTF-8 bytes of a code point of the basic plane. *)
Definition utf8 (cp : Z) : option string :=
  if cp <? 128 then Some (text_of [cp])
  else if cp <? 2048 then Some (text_of [192 + cp / 64; 128 + cp mod 64])
  else if (55296 <=? cp) && (cp <=? 57343) then None
  else Some (text_of [224 + cp / 4096; 128 + cp / 64 mod 64; 128 + cp mod 64]).

Definition unescape (c : ascii) : option ascii :=
  if (c =? dquote)%char || (c =? backslash)%char || (c =? "/")%char then Some c
  else if (c =? "b")%char then Some (char_of 8)
  else if (c =? "f")%char then Some (char_of 12)
  else if (c =? "n")%char then Some (char_of 10)
  else if (c =? "r")%char then Some (char_of 13)
  else if (c =? "t")%char then Some (char_of 9)
  else None.

(** The characters of a string literal, after its opening quote. *)
Fixpoint chars (s : string) : option (string * string) :=
  match s with
  | EmptyString => None
  | String c rest =>
      if (c =? dquote)%char then Some ("", rest)
      else if (c =? backslash)%char then
        match rest with
        | String e rest =>
            if (e =? "u")%char then
              match rest with
              | String h1 (String h2 (String h3 (String h4 rest))) =>
                  a ← hex_value h1; b ← hex_value h2;
                  c ← hex_value h3; d ← hex_value h4;
                  bytes ← utf8 (((a * 16 + b) * 16 + c) * 16 + d);
                  '(tail, rest) ← chars rest;
                  Some (bytes +:+ tail, rest)
              | _ => None
              end
            else
              c ← unescape e;
              '(tail, rest) ← chars rest;
              Some (String c tail, rest)
        | EmptyString => None
        end
      else if byte_of c <? 32 then None
      else '(tail, rest) ← chars rest; Some (String c tail, rest)
  end.

Definition literal (name : string) (v : json) (s : string) : option (json * string) :=
  if String.prefix name s
  then Some (v, String.substring (String.length name) (String.length s) s)
  else None.

Definition starts (c : ascii) (s : string) : option string :=
  match s with
  | String d rest => if (c =? d)%char then Some rest else None
  | EmptyString => None
  end.

Fixpoint value (fuel : nat) (s : string) : option (json * string) :=
  match fuel with
  | O => None
  | S fuel =>
      match skip_ws s with
      | EmptyString => None
      | String c rest as s =>
          if (c =? "n")%char then literal "null" JNull s
          else if (c =? "t")%char then literal "true" (JBool true) s
          else if (c =? "f")%char then literal "false" (JBool false) s
          else if (c =? dquote)%char then
            '(str, rest) ← chars rest; Some (JStr str, rest)
          else if (c =? "[")%char then
            match starts "]" (skip_ws rest) with
            | Some rest => Some (JArr [], rest)
            | None => '(items, rest) ← elements fuel rest; Some (JArr items, rest)
            end
          else if (c =? "{")%char then
            match starts "}" (skip_ws rest) with
            | Some rest => Some (JObj [], rest)
            | None =>
                '(props, rest) ← members fuel rest;
                Some (JObj (fold_left (fun m kv => Map_set (fst kv) (snd kv) m) props []),
                      rest)
            end
          else '(n, rest) ← number s; Some (JNum n, rest)
      end
  end
with elements (fuel : nat) (s : string) : option (list json * string) :=
  match fuel with
  | O => None
  | S fuel =>
      '(v, rest) ← value fuel s;
      let rest := skip_ws rest in
      match starts "," rest with
      | Some rest => '(vs, rest) ← elements fuel rest; Some (v :: vs, rest)
      | None => rest ← starts "]" rest; Some ([v], rest)
      end
  end
with members (fuel : nat) (s : string) : option (list (string * json) * string) :=
  match fuel with
  | O => None
  | S fuel =>
      rest ← starts dquote (skip_ws s);
      '(key, rest) ← chars rest;
      rest ← starts ":" (skip_ws rest);
      '(v, rest) ← value fuel rest;
      let rest := skip_ws rest in
      match starts "," rest with
      | Some rest => '(ms, rest) ← members fuel rest; Some ((key, v) :: ms, rest)
      | None => rest ← starts "}" rest; Some ([(key, v)], rest)
      end
  end.

Definition parse (s : string) : completion json :=
  match value (2 * String.length s + 2) s with
  | Some (v, rest) =>
      match skip_ws rest with
      | EmptyString => Normal v
      | _ => Throw SyntaxError
      end
  | None => Throw SyntaxError
  end.

(** *** [trim] *)

(** White space and line terminators, as UTF-8. *)
Definition white_space : list (list Z) :=
  [[9]; [10]; [11]; [12]; [13]; [32]; [194; 160]; [225; 154; 128];
   [226; 128; 168]; [226; 128; 169]; [226; 128; 175]; [226; 129; 159];
   [227; 128; 128]; [239; 187; 191]]
  ++ map (fun b => [226; 128; b]) [128; 129; 130; 131; 132; 133; 134; 135; 136; 137; 138].

Fixpoint strip (prefix bs : list Z) : option (list Z) :=
  match prefix, bs with
  | [], _ => Some bs
  | p :: prefix, b :: bs => if p =? b then strip prefix bs else None
  | _ :: _, [] => None
  end.

Definition strip_any (prefixes : list (list Z)) (bs : list Z) : option (list Z) :=
  fold_right (fun prefix found =>
                match strip prefix bs with Some rest => Some rest | None => found end)
             None prefixes.

Fixpoint strip_all (fuel : nat) (prefixes : list (list Z)) (bs : list Z) : list Z :=
  match fuel with
  | O => bs
  | S fuel =>
      match strip_any prefixes bs with
      | Some rest => strip_all fuel prefixes rest
      | None => bs
      end
  end.

Definition trim (s : string) : string :=
  let bs := strip_all (String.length s) white_space (bytes_of s) in
  let rs := strip_all (String.length s) (map (@rev Z) white_space) (rev bs) in
  text_of (rev rs).

(** *** [n > v] for a [v] that is not a number *)

Fixpoint to_string (v : json) : string :=
  match v with
  | JNull => "null"
  | JBool true => "true"
  | JBool false => "false"
  | JNum n => decimal n
  | JStr s => s
  | JArr items =>
      join "," (map (fun x => match x with JNull => "" | _ => to_string x end) items)
  | JObj _ => "[object Object]"
  end.

(** The strings that spell a decimal integer; [None] is [NaN], also for
    the numeric strings with a fraction, an exponent or a radix prefix. *)
Definition string_to_number (s : string) : option Z :=
  match trim s with
  | EmptyString => Some 0
  | String c rest as s =>
      let (negative, s) :=
        if (c =? "-")%char then (true, rest)
        else if (c =? "+")%char then (false, rest) else (false, s) in
      match s with
      | EmptyString => None
      | String d _ =>
          if is_digit d then
            match digits 0 s with
            | (n, EmptyString) => Some (if negative : bool then - n else n)
            | _ => None
            end
          else None
      end
  end.

Definition to_number (v : json) : option Z :=
  match v with
  | JNull => Some 0
  | JBool b => Some (if b then 1 else 0)
  | JNum n => Some n
  | JStr s => string_to_number s
  | _ => string_to_number (to_string v)
  end.

Definition gt (n : Z) (v : json) : bool :=
  match to_number v with
  | Some k => k <? n
  | None => false
  end.

Definition runtime : Runtime := {|
  hmac_sha256_base64url key msg := encode (hmac_sha256 (bytes_of key) (bytes_of msg));
  base64url_encode s := encode (bytes_of s);
  base64url_decode s := to_utf8_string (text_of (decode s));
  JSON_stringify := stringify;
  JSON_parse := parse;
  gt_coerced := gt;
  String_trim := trim;
  Buffer_toString := to_utf8_string
|}.

(** The configuration when no environment variable is set. *)
Definition defaults : Config := {|
  MQTT_URL := "mqtt://broker.hivemq.com:1883";
  TOPIC_PREFIX := "embarcatech";
  DASH_USER := "admin";
  DASH_PASS := "admin123";
  AUTH_SECRET := "CHANGE_ME_TO_A_LONG_RANDOM_SECRET_32+"
|}.
End Node.

(** ** Sample requests and messages, on Node with the default configuration *)

Module Sample.
#[local] Existing Instance Node.runtime.
#[local] Existing Instance Node.defaults.

(** [signToken({ u: "admin", exp: 1000 })] *)
Definition token : string :=
  "eyJ1IjoiYWRtaW4iLCJleHAiOjEwMDB9.SqRephW98eyseUR3LJ_dY3SEtKbtd-iclNU-7Wolcy8".

(** Two subscribers of [sensor1]; the connection of the first is lost. *)
Definition lost_subscriber : state :=
  run [Subscribe "sensor1"; Subscribe "sensor1"; ConnectionLost 0] initial.

(** Telemetry of [b] arrives before telemetry of [a]. *)
Definition b_then_a : state :=
  run [Message 1 "embarcatech/b/telemetry" "1";
       Message 2 "embarcatech/a/telemetry" "2"] initial.

(** One record of [sensor1] is stored. *)
Definition one_record : state :=
  run [Message 5 "embarcatech/sensor1/telemetry" "[21,5]"] initial.

(** A token signed for an object whose [exp] is [{}]. *)
Definition never_expires : string :=
  signToken (JObj [("u", JStr "admin"); ("exp", JObj [])]).

(** A body of the single byte FF, which no UTF-8 text contains, and
    the bytes EF BF BD of U+FFFD. *)
Definition ill_formed_body : string := String "255"%char "".
Definition replacement_character : string :=
  String "239"%char (String "191"%char (String "189"%char "")).

(** One record is stored, for the device named by the second level of its
    topic, spaces included. *)
Definition spaced_device : state :=
  run [Message 5 "embarcatech/ s1 /telemetry" "[21,5]"] initial.

(** U+FF5E (bytes EF BD 9E, one code unit FF5E) and U+1F600 (bytes
    F0 9F 98 80, code units D83D DE00). *)
Definition fullwidth_tilde : string :=
  String "239"%char (String "189"%char (String "158"%char "")).
Definition grinning_face : string :=
  String "240"%char (String "159"%char (String "152"%char (String "128"%char ""))).

(** Telemetry of a device named U+FF5E arrives before telemetry of one
    named U+1F600. *)
Definition tilde_then_face : state :=
  run [Message 1 ("embarcatech/" +:+ fullwidth_tilde +:+ "/telemetry") "1";
       Message 2 ("embarcatech/" +:+ grinning_face +:+ "/telemetry") "2"] initial.
End Sample.

(** ** What the cookie carries *)

(** The object survives the trip through the cookie: neither its encoded
    payload nor the code of that payload contains the separator, and
    decoding and parsing the payload gives the object back. *)
Definition round_trips `{Runtime} `{Config} (obj : json) : Prop :=
  let payload := b64url (JSON_stringify obj) in
  occurs "." payload = false
  ∧ occurs "." (hmac_sha256_base64url AUTH_SECRET payload) = false
  ∧ JSON_parse (base64url_decode payload) = Normal obj.

(** ** What the store holds for a device *)

Definition records_of {V : Type} (device : string) (m : list (string * V))
  : list (string * V) :=
  filter (λ kv, kv.1 = device) m.

(** ** What a subscriber has received *)

(** The two chunks [sseSend] writes for one event. *)
Definition sse_frame `{Runtime} (event : string) (obj : json) : list string :=
  ["event: " +:+ event +:+ LF; "data: " +:+ JSON_stringify obj +:+ LF +:+ LF].

(** The chunks that reached the channel of [res], oldest first. *)
Definition received (st : state) (res : nat) : option (list string) :=
  res_written <$> responses st !! res.

(** What [sseSend] does to the response it writes to. *)
Definition push `{Runtime} (event : string) (obj : json) (r : response) : response :=
  res_write ("data: " +:+ JSON_stringify obj +:+ LF +:+ LF)
    (res_write ("event: " +:+ event +:+ LF) r).

(** [for (const res of clients) sseSend(res, event, obj)] *)
Definition deliver `{Runtime} (event : string) (obj : json) (clients : list nat)
    (heap : list response) : list response :=
  fold_left (fun heap res => sseSend res event obj heap) clients heap.

(** The record the router builds for a message. *)
Definition record_of `{Runtime} (now : Z) (topic payload : string) : telemetry :=
  {| ts := now; topic := topic; raw := Buffer_toString payload;
     parsed := match JSON_parse (Buffer_toString payload) with
               | Normal v => v
               | Throw _ => JNull
               end |}.

(** ** The invariant of the process state *)

(** Keys are unique in both maps, no key is the empty string, and a
    registered subscriber is registered once and is a response of the heap. *)
Record invariant (st : state) : Prop := {
  inv_latest_keys : NoDup (Map_keys (latestByDevice st));
  inv_latest_named : "" ∉ Map_keys (latestByDevice st);
  inv_sse_keys : NoDup (Map_keys (sseByDevice st));
  inv_sse_named : "" ∉ Map_keys (sseByDevice st);
  inv_clients : ∀ device clients,
    (device, clients) ∈ sseByDevice st →
    NoDup clients ∧ ∀ res, res ∈ clients → (res < length (responses st))%nat
}.

(** ** The rest of the program: cookies, login, logout, commands *)

(** What the rest of the program calls besides [Runtime]. *)
Class Web : Type := {
  encodeURIComponent : string -> string;
  (** [decodeURIComponent]; [None] when it throws a [URIError]. *)
  decodeURIComponent : string -> option string;
  (** [String(v)] for a [v] that is not a string. *)
  ToString : json -> string
}.

Definition COOKIE_NAME : string := "auth".

(** [parts.join(sep)] *)
Fixpoint Array_join (sep : string) (parts : list string) : string :=
  match parts with
  | [] => ""
  | [part] => part
  | part :: rest => part +:+ sep +:+ Array_join sep rest
  end.

(** What the handlers read of a request. *)
Record request : Type := {
  req_cookie : option string;     (* [req.headers.cookie] *)
  req_path : string
}.

(** [req.headers.cookie || ""] *)
Definition cookie_header (req : request) : string :=
  match req_cookie req with Some c => c | None => "" end.

(** [String(v || "")] *)
Definition String_or_empty `{Web} (v : jsval) : string :=
  if truthy v then
    match v with
    | Some (JStr s) => s
    | Some x => ToString x
    | None => ""
    end
  else "".

Section Pages.
Context `{Runtime} `{Config} `{Web}.

(** The loop of [getCookie] over the trimmed parts of the header. *)
Fixpoint getCookie_parts (name : string) (parts : list string) : option string :=
  match parts with
  | [] => Some ""
  | p :: parts =>
      match split "=" p with
      | k :: rest =>
          if (k =? name)%string then decodeURIComponent (Array_join "=" rest)
          else getCookie_parts name parts
      | [] => getCookie_parts name parts
      end
  end.

(** [getCookie(req, name)]; [None] when [decodeURIComponent] throws. *)
Definition getCookie (req : request) (name : string) : option string :=
  let raw := match req_cookie req with Some c => c | None => "" end in
  let parts := map String_trim (split ";" raw) in
  getCookie_parts name parts.

(** [requireAuth(req, res, next)]; [None] when an exception leaves it. *)
Definition requireAuth_request (now : Z) (req : request) : option auth_outcome :=
  match getCookie req COOKIE_NAME with
  | None => None
  | Some token =>
      match requireAuth now token (String.prefix "/api/" (req_path req)) with
      | Normal outcome => Some outcome
      | Throw _ => None
      end
  end.

(** A redirect, with the [Set-Cookie] header of the reply if it has one. *)
Record redirect : Type := {
  location : string;
  set_cookie : option string
}.

(** [POST /login], given [req.body.user] and [req.body.pass]. *)
Definition post_login (now : Z) (user pass : jsval) : redirect :=
  let user := String_or_empty user in
  let pass := String_or_empty pass in
  match login now user pass with
  | Some token =>
      {| location := "/";
         set_cookie :=
           Some (COOKIE_NAME +:+ "=" +:+ encodeURIComponent token
                 +:+ "; Path=/; HttpOnly; SameSite=Lax; Secure; Max-Age=43200") |}
  | None => {| location := "/login?e=1"; set_cookie := None |}
  end.

(** [GET /logout] *)
Definition get_logout : redirect :=
  {| location := "/login";
     set_cookie :=
       Some (COOKIE_NAME +:+ "=; Path=/; HttpOnly; SameSite=Lax; Secure; Max-Age=0") |}.

(** What [mqttClient.publish] is called with. *)
Record publication : Type := {
  pub_topic : string;
  pub_payload : string;
  pub_qos : nat;
  pub_retain : bool
}.

(** [POST /api/device/:device/cmd], for a request that passed
    [requireAuth]: the message published, if one is, and the reply, which
    is sent when the callback of [publish] is called, with an error or
    without. *)
Definition api_cmd (param : string) (body : jsval) (publish_failed : bool)
  : option publication * http_reply :=
  let device := String_trim param in
  if (device =? "")%string
  then (None, ReplyJson 400 (JObj [("error", JStr "device required")]))
  else
    let topic := TOPIC_PREFIX +:+ "/" +:+ device +:+ "/cmd" in
    let payload := JSON_stringify (if truthy body
                                   then match body with Some v => v | None => JObj [] end
                                   else JObj []) in
    (Some {| pub_topic := topic; pub_payload := payload; pub_qos := 1; pub_retain := false |},
     if publish_failed
     then ReplyJson 500 (JObj [("ok", JBool false); ("error", JStr "publish_failed")])
     else ReplyJson 200 (JObj [("ok", JBool true); ("topic", JStr topic)])).

(** The token survives the trip to the browser and back: its encoding has
    no [;], stays as it is under [trim] behind the name of the cookie, and
    decodes to the token. *)
Definition cookie_carries (token : string) : Prop :=
  occurs ";" (encodeURIComponent token) = false
  ∧ String_trim (COOKIE_NAME +:+ "=" +:+ encodeURIComponent token)
    = COOKIE_NAME +:+ "=" +:+ encodeURIComponent token
  ∧ decodeURIComponent (encodeURIComponent token) = Some token.
End Pages.

(** A second invariant: every registered set has a member, and a response
    is registered for the device its request named. *)
Record registry_invariant (st : state) : Prop := {
  reg_inhabited : ∀ device clients, (device, clients) ∈ sseByDevice st → clients ≠ [];
  reg_device : ∀ device clients res,
    (device, clients) ∈ sseByDevice st → res ∈ clients →
    ∃ r, responses st !! res = Some r ∧ res_device r = device;
  reg_single_level : ∀ device,
    device ∈ Map_keys (latestByDevice st) → occurs "/" device = false
}.

(** No set of the registry holds [res]. *)
Definition unregistered (res : nat) (st : state) : Prop :=
  ∀ device clients, (device, clients) ∈ sseByDevice st → res ∉ clients.

(** The events of a run of messages, each a time, a topic and a body. *)
Definition messages (ms : list (Z * string * string)) : list event :=
  map (λ m, Message m.1.1 m.1.2 m.2) ms.

(** ** Node: the services of [Web], computed *)

Module NodeWeb.

Definition unreserved (c : ascii) : bool :=
  let b := Node.byte_of c in
  ((65 <=? b) && (b <=? 90)) || ((97 <=? b) && (b <=? 122)) || ((48 <=? b) && (b <=? 57))
  || existsb (Z.eqb b) [45; 95; 46; 33; 126; 42; 39; 40; 41].

Definition upper_hex (n : Z) : ascii :=
  match String.get (Z.to_nat n) "0123456789ABCDEF" with
  | Some c => c
  | None => "0"%char
  end.

Fixpoint encode (s : string) : string :=
  match s with
  | EmptyString => ""
  | String c rest =>
      if unreserved c then String c (encode rest)
      else
        let b := Node.byte_of c in
        String "%" (String (upper_hex (b / 16)) (String (upper_hex (b mod 16)) (encode rest)))
  end.

(** The byte of the escape the string starts with. *)
Definition escape_at (s : string) : option (Z * string) :=
  match s with
  | String c (String a (String b rest)) =>
      if (c =? "%")%char then
        h ← Node.hex_value a; l ← Node.hex_value b; Some (h * 16 + l, rest)
      else None
  | _ => None
  end.

(** [n] escaped continuation bytes. *)
Fixpoint continuation (n : nat) (s : string) : option (list Z * string) :=
  match n with
  | O => Some ([], s)
  | S n =>
      '(b, rest) ← escape_at s;
      if (128 <=? b) && (b <? 192) then
        '(bs, rest) ← continuation n rest; Some (b :: bs, rest)
      else None
  end.

(** How many continuation bytes follow a first byte, if it is one. *)
Definition following (b : Z) : option nat :=
  if (194 <=? b) && (b <=? 223) then Some 1%nat
  else if (224 <=? b) && (b <=? 239) then Some 2%nat
  else if (240 <=? b) && (b <=? 244) then Some 3%nat
  else None.

(** Neither too long an encoding, nor a surrogate, nor past U+10FFFF. *)
Definition well_formed (b : Z) (bs : list Z) : bool :=
  match bs with
  | b1 :: _ =>
      if b =? 224 then 160 <=? b1
      else if b =? 237 then b1 <? 160
      else if b =? 240 then 144 <=? b1
      else if b =? 244 then b1 <? 144
      else true
  | [] => true
  end.

Fixpoint decode (fuel : nat) (s : string) : option string :=
  match fuel with
  | O => match s with EmptyString => Some "" | _ => None end
  | S fuel =>
      match s with
      | EmptyString => Some ""
      | String c rest =>
          if (c =? "%")%char then
            '(b, rest) ← escape_at s;
            if b <? 128 then tail ← decode fuel rest; Some (String (Node.char_of b) tail)
            else
              n ← following b;
              '(bs, rest) ← continuation n rest;
              if well_formed b bs
              then tail ← decode fuel rest; Some (Node.text_of (b :: bs) +:+ tail)
              else None
          else tail ← decode fuel rest; Some (String c tail)
      end
  end.

Definition web : Web := {|
  encodeURIComponent := encode;
  decodeURIComponent s := decode (String.length s) s;
  ToString := Node.to_string
|}.
End NodeWeb.

(** ** More samples *)

Module SampleMore.
(** A configuration whose prefix has two levels. *)
Definition nested_prefix : Config := {|
  MQTT_URL := "mqtt://broker.hivemq.com:1883";
  TOPIC_PREFIX := "home/lab";
  DASH_USER := "admin";
  DASH_PASS := "admin123";
  AUTH_SECRET := "CHANGE_ME_TO_A_LONG_RANDOM_SECRET_32+"
|}.

(** A request that sends two cookies named [auth] after another cookie. *)
Definition three_cookies : request :=
  {| req_cookie := Some "a=1; auth=x%3Dy=z; auth=w"; req_path := "/api/devices" |}.

(** A request without a [Cookie] header. *)
Definition no_cookie : request := {| req_cookie := None; req_path := "/" |}.

(** Two messages of [sensor1]. *)
Definition two_messages : list (Z * string * string) :=
  [(8, "embarcatech/sensor1/telemetry", "[21,5]");
   (9, "embarcatech/sensor1/telemetry", "not json")].
End SampleMore.

(** * Properties *)

(** ** [split] *)

Lemma split_nonempty sep s : split sep s ≠ [].
Proof.
  destruct s as [|c rest]; simpl; [discriminate|].
  destruct (c =? sep)%char; [discriminate|].
  destruct (split sep rest); discriminate.
Qed.

Lemma split_append sep a b :
  split sep (a +:+ String sep b) = split sep a ++ split sep b.
Proof.
  induction a as [|c a IH]; simpl.
  - rewrite Ascii.eqb_refl. reflexivity.
  - destruct (c =? sep)%char.
    + simpl. f_equal. exact IH.
    + change (String.app a (String sep b)) with (a +:+ String sep b).
      rewrite IH. pose proof (split_nonempty sep a) as Hne.
      destruct (split sep a); [congruence|reflexivity].
Qed.

Lemma split_one sep s part : split sep s = [part] → s = part.
Proof.
  revert part. induction s as [|c s IH]; simpl; intros part Hs.
  - congruence.
  - destruct (c =? sep)%char.
    + injection Hs as _ Hs. destruct (split_nonempty _ _ Hs).
    + destruct (split sep s) as [|p ps] eqn:Hsplit.
      * destruct (split_nonempty _ _ Hsplit).
      * injection Hs as <- ->. f_equal. apply IH. reflexivity.
Qed.

Lemma split_two sep s a b : split sep s = [a; b] → s = a +:+ String sep b.
Proof.
  revert a. induction s as [|c s IH]; simpl; intros a Hs.
  - congruence.
  - destruct (c =? sep)%char eqn:Hc.
    + apply Ascii.eqb_eq in Hc as ->. injection Hs as <- Hs.
      apply split_one in Hs as ->. reflexivity.
    + destruct (split sep s) as [|p ps] eqn:Hsplit.
      * destruct (split_nonempty _ _ Hsplit).
      * injection Hs as <- ->. rewrite (IH p eq_refl). reflexivity.
Qed.

Lemma split_without sep s : occurs sep s = false → split sep s = [s].
Proof.
  induction s as [|c s IH]; simpl; [reflexivity|].
  intros [Hc Hs]%orb_false_iff. rewrite Hc, (IH Hs). reflexivity.
Qed.

(** A string with one separator between two parts splits into those two
    parts, or into more than two. *)
Lemma split_pair sep a b p q :
  split sep (a +:+ String sep b) = [p; q] → p = a ∧ q = b.
Proof.
  rewrite split_append. intros Hs.
  pose proof (split_nonempty sep a) as Ha. pose proof (split_nonempty sep b) as Hb.
  destruct (split sep a) as [|a1 [|a2 la]] eqn:Hsa; [congruence| |].
  - destruct (split sep b) as [|b1 [|b2 lb]] eqn:Hsb; [congruence| |discriminate].
    simpl in Hs. injection Hs as <- <-.
    apply split_one in Hsa, Hsb. auto.
  - destruct (split sep b); [congruence|]. simpl in Hs. destruct la; discriminate.
Qed.

(** ** The order of code units *)

Lemma units_leb_total (a b : list Z) : units_leb a b = true ∨ units_leb b a = true.
Proof.
  revert b. induction a as [|x a IH]; intros [|y b]; simpl; auto.
  destruct (Z.ltb_spec x y), (Z.ltb_spec y x); auto; lia.
Qed.

Lemma units_leb_trans (a b c : list Z) :
  units_leb a b = true → units_leb b c = true → units_leb a c = true.
Proof.
  revert b c. induction a as [|x a IH]; intros [|y b] [|z c]; simpl; try done.
  destruct (Z.ltb_spec x y), (Z.ltb_spec y x), (Z.ltb_spec y z), (Z.ltb_spec z y),
    (Z.ltb_spec x z), (Z.ltb_spec z x); try done; try lia.
  apply IH.
Qed.

#[global] Instance utf16_le_total : Total utf16_le.
Proof. intros a b. apply units_leb_total. Qed.

#[global] Instance utf16_le_trans : Transitive utf16_le.
Proof. intros a b c. apply units_leb_trans. Qed.

#[global] Instance utf16_le_refl : Reflexive utf16_le.
Proof. intros a. by destruct (units_leb_total (code_units a) (code_units a)). Qed.

Lemma Buffer_from_inj a b : Buffer_from a = Buffer_from b → a = b.
Proof.
  unfold Buffer_from. intros Hab.
  rewrite <- (string_of_list_ascii_of_string a), <- (string_of_list_ascii_of_string b).
  congruence.
Qed.

(** ** [Map] and [Set] *)

Section CollectionFacts.
Context {K V : Type} `{EqDecision K}.
Implicit Types (m : list (K * V)) (s : list K).

Lemma Map_get_set m k v : Map_get k (Map_set k v m) = Some v.
Proof.
  induction m as [|[k' v'] m IH]; simpl.
  - rewrite decide_True; auto.
  - destruct (decide (k' = k)); simpl.
    + rewrite decide_True; auto.
    + rewrite decide_False; auto.
Qed.

Lemma Map_get_set_other m k k' v : k ≠ k' → Map_get k' (Map_set k v m) = Map_get k' m.
Proof.
  intros Hne. induction m as [|[k0 v0] m IH]; simpl.
  - rewrite decide_False; auto.
  - destruct (decide (k0 = k)) as [->|]; simpl.
    + rewrite !decide_False; auto.
    + destruct (decide (k0 = k')); auto.
Qed.

Lemma Map_get_elem m k v : Map_get k m = Some v → (k, v) ∈ m.
Proof.
  induction m as [|[k' v'] m IH]; simpl; [discriminate|].
  destruct (decide (k' = k)) as [->|].
  - intros [= ->]. left.
  - intros Hget. right. auto.
Qed.

Lemma Map_get_keys m k : k ∈ Map_keys m ↔ is_Some (Map_get k m).
Proof.
  unfold Map_keys. induction m as [|[k' v'] m IH]; simpl.
  - split; [intros Hin; inversion Hin|intros [? ?]; discriminate].
  - rewrite elem_of_cons. destruct (decide (k' = k)) as [->|].
    + split; eauto.
    + rewrite IH. split; [intros [?|?]; [congruence|done]|auto].
Qed.

Lemma Map_get_elem_unique m k v :
  NoDup (Map_keys m) → (k, v) ∈ m → Map_get k m = Some v.
Proof.
  unfold Map_keys. induction m as [|[k' v'] m IH]; simpl.
  - intros _ Hin. inversion Hin.
  - intros [Hk' Hm]%NoDup_cons [[= -> ->]|Hin]%elem_of_cons.
    + rewrite decide_True; auto.
    + rewrite decide_False; [auto|].
      intros ->. apply Hk'. apply (list_elem_of_fmap_2 fst _ _ Hin).
Qed.

Lemma Map_set_keys m k v :
  Map_keys (Map_set k v m)
  = if bool_decide (k ∈ Map_keys m) then Map_keys m else Map_keys m ++ [k].
Proof.
  unfold Map_keys. induction m as [|[k' v'] m IH]; cbn [Map_set map fst].
  - rewrite bool_decide_false; [reflexivity|]. intros Hin. inversion Hin.
  - destruct (decide (k' = k)) as [->|Hne]; cbn [Map_set map fst].
    + rewrite bool_decide_true; [reflexivity|]. left.
    + rewrite IH. destruct (bool_decide (k ∈ map fst m)) eqn:Hin.
      * apply bool_decide_eq_true in Hin.
        rewrite bool_decide_true; [reflexivity|]. right. exact Hin.
      * apply bool_decide_eq_false in Hin.
        rewrite bool_decide_false; [reflexivity|].
        rewrite elem_of_cons. intros [?|?]; [congruence|done].
Qed.

Lemma Map_set_keys_elem m k v x :
  x ∈ Map_keys (Map_set k v m) ↔ x = k ∨ x ∈ Map_keys m.
Proof.
  rewrite Map_set_keys. case_bool_decide as Hin.
  - split; [auto|]. intros [->|?]; auto.
  - rewrite elem_of_app, list_elem_of_singleton. tauto.
Qed.

Lemma Map_set_keys_NoDup m k v : NoDup (Map_keys m) → NoDup (Map_keys (Map_set k v m)).
Proof.
  intros Hm. rewrite Map_set_keys. case_bool_decide as Hin; [done|].
  apply NoDup_app. split_and!; [done| |apply NoDup_singleton].
  intros x Hx ->%list_elem_of_singleton. done.
Qed.

Lemma Map_set_elem m k v k' v' :
  (k', v') ∈ Map_set k v m → (k' = k ∧ v' = v) ∨ (k', v') ∈ m.
Proof.
  induction m as [|[k0 v0] m IH]; simpl.
  - intros [= -> ->]%list_elem_of_singleton. auto.
  - destruct (decide (k0 = k)) as [->|].
    + intros [[= -> ->]|Hin]%elem_of_cons; [auto|]. right. right. done.
    + intros [[= -> ->]|Hin]%elem_of_cons; [right; left|].
      destruct (IH Hin); [auto|]. right. right. done.
Qed.

Lemma Map_delete_elem m k kv : kv ∈ Map_delete k m → kv ∈ m.
Proof.
  induction m as [|[k0 v0] m IH]; simpl; [done|].
  destruct (decide (k0 = k)).
  - intros Hin. right. done.
  - intros [->|Hin]%elem_of_cons; [left|right; auto].
Qed.

Lemma Map_delete_keys_elem m k x : x ∈ Map_keys (Map_delete k m) → x ∈ Map_keys m.
Proof.
  unfold Map_keys. intros ([k' v'] & -> & Hin)%list_elem_of_fmap.
  apply (list_elem_of_fmap_2 fst _ _ (Map_delete_elem _ _ _ Hin)).
Qed.

Lemma Map_delete_keys_NoDup m k : NoDup (Map_keys m) → NoDup (Map_keys (Map_delete k m)).
Proof.
  unfold Map_keys. induction m as [|[k0 v0] m IH]; simpl; [done|].
  intros [Hk0 Hm]%NoDup_cons. destruct (decide (k0 = k)); [done|].
  simpl. apply NoDup_cons. split; [|auto].
  intros Hin. apply Hk0. apply (Map_delete_keys_elem _ _ _ Hin).
Qed.

Lemma Set_add_elem s x y : y ∈ Set_add x s ↔ y = x ∨ y ∈ s.
Proof.
  unfold Set_add, Set_has. case_bool_decide as Hin.
  - split; [auto|]. intros [->|?]; auto.
  - rewrite elem_of_app, list_elem_of_singleton. tauto.
Qed.

Lemma Set_add_NoDup s x : NoDup s → NoDup (Set_add x s).
Proof.
  intros Hs. unfold Set_add, Set_has. case_bool_decide as Hin; [done|].
  apply NoDup_app. split_and!; [done| |apply NoDup_singleton].
  intros y Hy ->%list_elem_of_singleton. done.
Qed.

Lemma Set_delete_elem s x y : y ∈ Set_delete x s → y ∈ s.
Proof.
  induction s as [|z s IH]; simpl; [done|].
  destruct (decide (z = x)).
  - intros Hin. right. done.
  - intros [->|Hin]%elem_of_cons; [left|right; auto].
Qed.

Lemma Set_delete_NoDup s x : NoDup s → NoDup (Set_delete x s).
Proof.
  induction s as [|z s IH]; simpl; [done|].
  intros [Hz Hs]%NoDup_cons. destruct (decide (z = x)); [done|].
  apply NoDup_cons. split; [|auto].
  intros Hin. apply Hz. apply (Set_delete_elem _ _ _ Hin).
Qed.
End CollectionFacts.

(** ** The heap of responses *)

Section HeapFacts.
Context `{Runtime}.

Lemma push_written event obj r :
  res_written (push event obj r)
  = if res_writable r then res_written r ++ sse_frame event obj else res_written r.
Proof.
  unfold push, res_write, sse_frame. destruct r as [d h w []]; simpl; [|reflexivity].
  rewrite <- app_assoc. reflexivity.
Qed.

Lemma sseSend_length res event obj heap :
  length (sseSend res event obj heap) = length heap.
Proof. unfold sseSend. rewrite !length_alter. reflexivity. Qed.

Lemma sseSend_lookup res event obj heap i :
  sseSend res event obj heap !! i
  = if decide (i = res) then push event obj <$> heap !! i else heap !! i.
Proof.
  unfold sseSend, push. destruct (decide (i = res)) as [->|Hne].
  - rewrite !list_lookup_alter_eq. destruct (heap !! res); reflexivity.
  - rewrite !list_lookup_alter_ne by congruence. reflexivity.
Qed.

Lemma deliver_length event obj clients heap :
  length (deliver event obj clients heap) = length heap.
Proof.
  unfold deliver. revert heap. induction clients as [|c cs IH]; intros heap; simpl.
  - reflexivity.
  - rewrite IH. apply sseSend_length.
Qed.

(** Every client of the list is sent the event once, and no other
    response is touched. *)
Lemma deliver_lookup event obj clients heap i :
  NoDup clients →
  deliver event obj clients heap !! i
  = if bool_decide (i ∈ clients) then push event obj <$> heap !! i else heap !! i.
Proof.
  unfold deliver. revert heap.
  induction clients as [|c cs IH]; intros heap Hnd; cbn [fold_left].
  - rewrite bool_decide_false; [reflexivity|]. intros Hin. inversion Hin.
  - apply NoDup_cons in Hnd as [Hc Hcs]. rewrite (IH _ Hcs), sseSend_lookup.
    destruct (decide (i = c)) as [->|Hne].
    + rewrite bool_decide_false by done. rewrite bool_decide_true; [reflexivity|left].
    + case_bool_decide as Hin.
      * rewrite bool_decide_true; [reflexivity|]. right. done.
      * rewrite bool_decide_false; [reflexivity|].
        rewrite elem_of_cons. intros [?|?]; done.
Qed.
End HeapFacts.

(** ** The handlers *)

Section BridgeFacts.
Context `{Runtime} `{Config}.

Lemma getDeviceFromTopic_Some topic device :
  getDeviceFromTopic topic = Some device ↔
  (3 ≤ length (split "/" topic))%nat
  ∧ nth 0 (split "/" topic) "" = TOPIC_PREFIX
  ∧ nth 1 (split "/" topic) "" = device.
Proof.
  unfold getDeviceFromTopic.
  destruct (Nat.ltb_spec (length (split "/" topic)) 3) as [Hlt|Hge].
  - split; [discriminate|]. intros (? & _). lia.
  - destruct (String.eqb_spec (nth 0 (split "/" topic) "") TOPIC_PREFIX) as [Heq|Hne];
      simpl.
    + split; [intros [= <-]; auto|]. intros (_ & _ & ->). reflexivity.
    + split; [discriminate|]. intros (_ & ? & _). done.
Qed.

Lemma getDeviceFromTopic_None topic :
  getDeviceFromTopic topic = None ↔
  (length (split "/" topic) < 3)%nat ∨ nth 0 (split "/" topic) "" ≠ TOPIC_PREFIX.
Proof.
  unfold getDeviceFromTopic.
  destruct (Nat.ltb_spec (length (split "/" topic)) 3) as [Hlt|Hge].
  - split; auto.
  - destruct (String.eqb_spec (nth 0 (split "/" topic) "") TOPIC_PREFIX) as [Heq|Hne];
      simpl.
    + split; [discriminate|]. intros [?|?]; [lia|done].
    + split; auto.
Qed.

(** A message whose topic names a device is stored and delivered. *)
Lemma on_message_stored now topic payload st device :
  getDeviceFromTopic topic = Some device → device ≠ "" →
  on_message now topic payload st
  = {| latestByDevice :=
         Map_set device (record_of now topic payload) (latestByDevice st);
       sseByDevice := sseByDevice st;
       responses :=
         match Map_get device (sseByDevice st) with
         | Some clients =>
             deliver "telemetry" (telemetry_json (record_of now topic payload))
                     clients (responses st)
         | None => responses st
         end |}.
Proof.
  intros Hdev Hne. unfold on_message. rewrite Hdev.
  apply String.eqb_neq in Hne. rewrite Hne. reflexivity.
Qed.

Lemma on_message_dropped now topic payload st :
  getDeviceFromTopic topic = None ∨ getDeviceFromTopic topic = Some "" →
  on_message now topic payload st = st.
Proof. unfold on_message. intros [->| ->]; reflexivity. Qed.

Lemma on_message_cases now topic payload st :
  on_message now topic payload st = st
  ∨ ∃ device, getDeviceFromTopic topic = Some device ∧ device ≠ "".
Proof.
  destruct (getDeviceFromTopic topic) as [device|] eqn:Hdev.
  - destruct (decide (device = "")) as [->|Hne]; [|eauto].
    left. apply on_message_dropped. auto.
  - left. apply on_message_dropped. auto.
Qed.

(** A request for a stream that names a device. *)
Lemma api_stream_opened param st :
  String_trim param ≠ "" →
  api_stream param st
  = let device := String_trim param in
    let res := length (responses st) in
    let fresh := {| res_device := device;
                    res_headers := [("Content-Type", "text/event-stream");
                                    ("Cache-Control", "no-cache");
                                    ("Connection", "keep-alive")];
                    res_written := []; res_writable := true |} in
    let sse := if Map_has device (sseByDevice st) then sseByDevice st
               else Map_set device [] (sseByDevice st) in
    ({| latestByDevice := latestByDevice st;
        sseByDevice :=
          match Map_get device sse with
          | Some set => Map_set device (Set_add res set) sse
          | None => sse
          end;
        responses :=
          sseSend res "hello" (hello device (Map_get device (latestByDevice st)))
                  (responses st ++ [fresh]) |},
     ReplyStream res).
Proof.
  intros Hne. unfold api_stream. apply String.eqb_neq in Hne. rewrite Hne.
  destruct (Map_has (String_trim param) (sseByDevice st)); reflexivity.
Qed.

Lemma invariant_initial : invariant initial.
Proof.
  split; simpl.
  - apply NoDup_nil_2.
  - intros Hin. inversion Hin.
  - apply NoDup_nil_2.
  - intros Hin. inversion Hin.
  - intros device clients Hin. inversion Hin.
Qed.

Lemma invariant_on_message now topic payload st :
  invariant st → invariant (on_message now topic payload st).
Proof.
  intros Hinv. destruct (on_message_cases now topic payload st) as [->|(dev & Hdev & Hne)];
    [done|].
  rewrite (on_message_stored _ _ _ _ _ Hdev Hne). destruct Hinv as [L1 L2 S1 S2 C].
  split; simpl; auto.
  - apply Map_set_keys_NoDup, L1.
  - rewrite Map_set_keys_elem. intros [?|?]; [congruence|done].
  - intros d clients Hin. destruct (C d clients Hin) as [Hnd Hlt]. split; [done|].
    destruct (Map_get dev (sseByDevice st)); [rewrite deliver_length|]; auto.
Qed.

Lemma invariant_api_stream param st :
  invariant st → invariant (fst (api_stream param st)).
Proof.
  intros Hinv. destruct (decide (String_trim param = "")) as [Hempty|Hne].
  { unfold api_stream. apply String.eqb_eq in Hempty. rewrite Hempty. done. }
  rewrite (api_stream_opened _ _ Hne). cbv zeta. destruct Hinv as [L1 L2 S1 S2 C].
  set (device := String_trim param) in *.
  assert (∃ sse,
            (if Map_has device (sseByDevice st) then sseByDevice st
             else Map_set device [] (sseByDevice st)) = sse
            ∧ NoDup (Map_keys sse) ∧ ("" ∉ Map_keys sse)
            ∧ ∀ d clients, (d, clients) ∈ sse →
                NoDup clients
                ∧ ∀ res, res ∈ clients → (res < length (responses st))%nat)
    as (sse & -> & S1' & S2' & C').
  { destruct (Map_has device (sseByDevice st)); eexists; (split; [reflexivity|]).
    - split_and!; [done|done|exact C].
    - split_and!.
      + by apply Map_set_keys_NoDup.
      + rewrite Map_set_keys_elem. intros [?|?]; [congruence|done].
      + intros d clients [[_ ->]|Hin]%Map_set_elem; [|by apply (C d)].
        split; [apply NoDup_nil_2|]. intros res Hres. inversion Hres. }
  split; simpl; auto.
  - destruct (Map_get device sse); [by apply Map_set_keys_NoDup|done].
  - destruct (Map_get device sse); [|done].
    rewrite Map_set_keys_elem. intros [?|?]; [congruence|done].
  - intros d clients Hin. rewrite sseSend_length, length_app. simpl.
    destruct (Map_get device sse) as [set|] eqn:Hset.
    + apply Map_set_elem in Hin as [[_ ->]|Hin].
      * apply Map_get_elem in Hset. destruct (C' _ _ Hset) as [Hnd Hlt].
        split; [by apply Set_add_NoDup|].
        intros res [->|Hres]%Set_add_elem; [lia|]. specialize (Hlt _ Hres). lia.
      * destruct (C' _ _ Hin) as [Hnd Hlt]. split; [done|].
        intros res Hres. specialize (Hlt _ Hres). lia.
    + destruct (C' _ _ Hin) as [Hnd Hlt]. split; [done|].
      intros res Hres. specialize (Hlt _ Hres). lia.
Qed.

Lemma invariant_on_close res st : invariant st → invariant (on_close res st).
Proof.
  intros Hinv. unfold on_close. destruct (responses st !! res) as [r|]; [|done].
  destruct (Map_get (res_device r) (sseByDevice st)) as [set|] eqn:Hset; [|done].
  destruct Hinv as [L1 L2 S1 S2 C].
  assert (res_device r ≠ "") as Hne.
  { intros Heq. apply S2. apply Map_get_keys. rewrite <- Heq, Hset. eauto. }
  apply Map_get_elem in Hset. destruct (C _ _ Hset) as [Hnd Hlt].
  set (sse := Map_set (res_device r) (Set_delete res set) (sseByDevice st)).
  assert (NoDup (Map_keys sse)) as S1' by (by apply Map_set_keys_NoDup).
  assert ("" ∉ Map_keys sse) as S2'.
  { unfold sse. rewrite Map_set_keys_elem. intros [?|?]; [congruence|done]. }
  assert (∀ d clients, (d, clients) ∈ sse →
            NoDup clients ∧ ∀ res, res ∈ clients → (res < length (responses st))%nat)
    as C'.
  { unfold sse. intros d clients [[_ ->]|Hin]%Map_set_elem; [|by apply (C d)].
    split; [by apply Set_delete_NoDup|].
    intros x Hx%Set_delete_elem. auto. }
  clearbody sse. split; simpl; auto.
  - destruct (length _ =? 0)%nat; [by apply Map_delete_keys_NoDup|done].
  - destruct (length _ =? 0)%nat; [|done].
    intros Hin%Map_delete_keys_elem. done.
  - intros d clients Hin. destruct (length _ =? 0)%nat; [|by apply (C' d)].
    apply Map_delete_elem in Hin. by apply (C' d).
Qed.

Lemma invariant_handle ev st : invariant st → invariant (handle ev st).
Proof.
  intros Hinv. destruct ev as [now topic payload|param|res|res]; simpl.
  - by apply invariant_on_message.
  - by apply invariant_api_stream.
  - destruct Hinv as [L1 L2 S1 S2 C]. split; simpl; auto.
    intros d clients Hin. rewrite length_alter. by apply (C d).
  - by apply invariant_on_close.
Qed.

Lemma reachable_invariant st : reachable st → invariant st.
Proof.
  induction 1 as [|ev st _ IH]; [apply invariant_initial|by apply invariant_handle].
Qed.

Lemma reachable_run evs st : reachable st → reachable (run evs st).
Proof.
  unfold run. revert st. induction evs as [|ev evs IH]; intros st Hst; simpl; [done|].
  apply IH. by constructor.
Qed.
End BridgeFacts.

(** ** The token codec *)

Section AuthFacts.
Context `{Runtime} `{Config}.

Lemma timingSafeEqual_spec a b :
  length (Buffer_from a) = length (Buffer_from b) →
  timingSafeEqual (Buffer_from a) (Buffer_from b) = Normal (bool_decide (a = b)).
Proof.
  intros Hlen. unfold timingSafeEqual. rewrite Hlen, Nat.eqb_refl. f_equal.
  apply bool_decide_ext. split; [apply Buffer_from_inj|congruence].
Qed.

(** [verifyToken] returns: nothing it calls throws past it. *)
Lemma verifyToken_returns now token : ∃ r, verifyToken now token = Normal r.
Proof.
  unfold verifyToken. destruct (token =? "")%string; [eauto|].
  destruct (split "." token) as [|payload [|sig [|]]]; eauto.
  destruct (Nat.eqb_spec (length (Buffer_from sig))
              (length (Buffer_from (hmac_sha256_base64url AUTH_SECRET payload))))
    as [Hlen|]; simpl; [|eauto].
  rewrite (timingSafeEqual_spec _ _ Hlen). simpl.
  case_bool_decide; simpl; [|eauto].
  destruct (JSON_parse _) as [obj|]; simpl; [|eauto].
  destruct (get_property obj "exp") as [exp|]; simpl; [|eauto].
  destruct (negb (truthy exp) || js_gt now exp); simpl; eauto.
Qed.

(** What a token that verifies is made of. *)
Lemma verifyToken_Some now token obj :
  verifyToken now token = Normal (Some obj) →
  ∃ payload sig exp,
    split "." token = [payload; sig]
    ∧ sig = hmac_sha256_base64url AUTH_SECRET payload
    ∧ JSON_parse (base64url_decode payload) = Normal obj
    ∧ get_property obj "exp" = Normal exp
    ∧ truthy exp = true
    ∧ js_gt now exp = false.
Proof.
  unfold verifyToken. destruct (token =? "")%string; [discriminate|].
  destruct (split "." token) as [|payload [|sig [|]]]; try discriminate.
  destruct (Nat.eqb_spec (length (Buffer_from sig))
              (length (Buffer_from (hmac_sha256_base64url AUTH_SECRET payload))))
    as [Hlen|]; simpl; [|discriminate].
  rewrite (timingSafeEqual_spec _ _ Hlen). simpl.
  case_bool_decide as Hsig; simpl; [|discriminate].
  destruct (JSON_parse _) as [parsed|] eqn:Hparse; simpl; [|discriminate].
  destruct (get_property parsed "exp") as [exp|] eqn:Hexp; simpl; [|discriminate].
  destruct (truthy exp) eqn:Htruthy; simpl; [|discriminate].
  destruct (js_gt now exp) eqn:Hgt; simpl; [discriminate|].
  intros [= <-]. exists payload, sig, exp. auto 10.
Qed.

Lemma verifyToken_accepts now payload sig obj exp :
  occurs "." payload = false → occurs "." sig = false →
  sig = hmac_sha256_base64url AUTH_SECRET payload →
  JSON_parse (base64url_decode payload) = Normal obj →
  get_property obj "exp" = Normal exp →
  truthy exp = true → js_gt now exp = false →
  verifyToken now (payload +:+ "." +:+ sig) = Normal (Some obj).
Proof.
  intros Hp Hs -> Hparse Hexp Htruthy Hgt. unfold verifyToken.
  destruct (String.eqb_spec (payload +:+ "." +:+ hmac_sha256_base64url AUTH_SECRET payload) "")
    as [Hempty|_].
  { destruct payload; discriminate. }
  change (payload +:+ "." +:+ ?x) with (payload +:+ String "." x).
  rewrite split_append, (split_without _ _ Hp), (split_without _ _ Hs). simpl.
  rewrite Nat.eqb_refl. simpl.
  rewrite timingSafeEqual_spec by reflexivity. rewrite bool_decide_true by reflexivity.
  simpl. rewrite Hparse. simpl. rewrite Hexp. simpl. rewrite Htruthy, Hgt. reflexivity.
Qed.

(** A token whose second segment is not the code of its first is refused. *)
Lemma verifyToken_wrong_code now payload sig :
  sig ≠ hmac_sha256_base64url AUTH_SECRET payload →
  verifyToken now (payload +:+ "." +:+ sig) = Normal None.
Proof.
  intros Hsig. destruct (verifyToken_returns now (payload +:+ "." +:+ sig)) as [[obj|] Hr];
    [|done].
  apply verifyToken_Some in Hr as (p & s & exp & Hsplit & Hs & _).
  apply split_pair in Hsplit as [-> ->]. done.
Qed.

(** A token whose object has expired is refused. *)
Lemma verifyToken_expired now payload sig obj e :
  JSON_parse (base64url_decode payload) = Normal obj →
  get_property obj "exp" = Normal (Some (JNum e)) →
  e < now →
  verifyToken now (payload +:+ "." +:+ sig) = Normal None.
Proof.
  intros Hparse Hexp Hlate.
  destruct (verifyToken_returns now (payload +:+ "." +:+ sig)) as [[obj'|] Hr]; [|done].
  exfalso.
  apply verifyToken_Some in Hr as (p & s & exp & Hsplit & _ & Hparse' & Hexp' & _ & Hgt).
  apply split_pair in Hsplit as [-> ->].
  rewrite Hparse in Hparse'. injection Hparse' as <-.
  rewrite Hexp in Hexp'. injection Hexp' as <-.
  simpl in Hgt. lia.
Qed.

(** A token whose object has an [exp] that is falsy, or that the current
    time exceeds, is refused. *)
Lemma verifyToken_lapsed now payload sig obj exp :
  JSON_parse (base64url_decode payload) = Normal obj →
  get_property obj "exp" = Normal exp →
  truthy exp = false ∨ js_gt now exp = true →
  verifyToken now (payload +:+ "." +:+ sig) = Normal None.
Proof.
  intros Hparse Hexp Hlapsed.
  destruct (verifyToken_returns now (payload +:+ "." +:+ sig)) as [[obj'|] Hr]; [|done].
  exfalso.
  apply verifyToken_Some in Hr
    as (p & s & exp' & Hsplit & _ & Hparse' & Hexp' & Htruthy & Hgt).
  apply split_pair in Hsplit as [-> ->].
  rewrite Hparse in Hparse'. injection Hparse' as <-.
  rewrite Hexp in Hexp'. injection Hexp' as <-.
  destruct Hlapsed; congruence.
Qed.

(** A token that is empty, or not of two segments, is refused. *)
Lemma verifyToken_malformed now token :
  token = "" ∨ length (split "." token) ≠ 2%nat →
  verifyToken now token = Normal None.
Proof.
  intros Hform.
  destruct (verifyToken_returns now token) as [[obj|] Hr]; [|done].
  exfalso.
  apply verifyToken_Some in Hr as (p & s & exp & Hsplit & _).
  destruct Hform as [->|Hlen]; [discriminate|].
  rewrite Hsplit in Hlen. by apply Hlen.
Qed.
End AuthFacts.

Section TokenClaims.
Context `{Runtime} `{Config}.

(** C1, as amended.  [verifyToken] always returns (no exception leaves
    it).  It returns the decoded object only if the token is a payload and
    the code recomputed for that payload, the [exp] of the object is
    truthy, and [now > exp] is false as JavaScript compares them.  For an
    [exp] that is a number, that is [now ≤ exp] and [exp ≠ 0]: the expiry
    instant itself is still valid.  The outcome is [null] for the empty
    token, for one not of two segments, for one whose code is not the code
    of its payload, for one whose [exp] is falsy, and whenever [now > exp];
    for a number, whenever [exp < now]. *)
Theorem verifyToken_valid_only_if (now : Z) (token : string) :
  (∃ r, verifyToken now token = Normal r)
  ∧ (∀ obj, verifyToken now token = Normal (Some obj) →
       ∃ payload sig exp,
         token = payload +:+ "." +:+ sig
         ∧ sig = hmac_sha256_base64url AUTH_SECRET payload
         ∧ JSON_parse (base64url_decode payload) = Normal obj
         ∧ get_property obj "exp" = Normal exp
         ∧ truthy exp = true
         ∧ js_gt now exp = false
         ∧ ∀ e, exp = Some (JNum e) → e ≠ 0 ∧ now ≤ e)
  ∧ (token = "" ∨ length (split "." token) ≠ 2%nat →
       verifyToken now token = Normal None)
  ∧ (∀ payload sig,
       token = payload +:+ "." +:+ sig →
       sig ≠ hmac_sha256_base64url AUTH_SECRET payload →
       verifyToken now token = Normal None)
  ∧ (∀ payload sig obj exp,
       token = payload +:+ "." +:+ sig →
       JSON_parse (base64url_decode payload) = Normal obj →
       get_property obj "exp" = Normal exp →
       truthy exp = false ∨ js_gt now exp = true →
       verifyToken now token = Normal None)
  ∧ (∀ payload sig obj e,
       token = payload +:+ "." +:+ sig →
       JSON_parse (base64url_decode payload) = Normal obj →
       get_property obj "exp" = Normal (Some (JNum e)) →
       e < now →
       verifyToken now token = Normal None).
Proof.
  split_and!.
  - apply verifyToken_returns.
  - intros obj
      (payload & sig & exp & Hsplit & Hsig & Hparse & Hexp & Htruthy & Hgt)%verifyToken_Some.
    exists payload, sig, exp. split_and!; auto.
    + apply (split_two _ _ _ _ Hsplit).
    + intros e ->. simpl in Htruthy, Hgt.
      apply negb_true_iff, Z.eqb_neq in Htruthy. lia.
  - apply verifyToken_malformed.
  - intros payload sig -> Hsig. by apply verifyToken_wrong_code.
  - intros payload sig obj exp -> Hparse Hexp Hlapsed.
    by apply (verifyToken_lapsed now payload sig obj exp).
  - intros payload sig obj e -> Hparse Hexp Hlate.
    by apply (verifyToken_expired now payload sig obj e).
Qed.

(** C2, as amended.  A token issued at a time [issued] (not before the
    epoch) for an identity and a positive [ttl], whose object survives the
    trip through the cookie, verifies to that object, which names the same
    identity, at every time up to and including [issued + ttl]; at every
    later time it is refused. *)
Theorem issue_then_verify (issued now ttl : Z) (identity : string) :
  0 < ttl → 0 ≤ issued →
  round_trips (session identity (issued + ttl)) →
  (now ≤ issued + ttl →
     verifyToken now (issue issued identity ttl)
     = Normal (Some (session identity (issued + ttl))))
  ∧ get_property (session identity (issued + ttl)) "u" = Normal (Some (JStr identity))
  ∧ (issued + ttl < now →
       verifyToken now (issue issued identity ttl) = Normal None).
Proof.
  intros Httl Hissued (Hp & Hs & Hparse). split; [|split].
  - intros Hnow. unfold issue, signToken.
    apply (verifyToken_accepts now _ _ _ (Some (JNum (issued + ttl)))); auto.
    + simpl. apply negb_true_iff, Z.eqb_neq. lia.
    + simpl. apply Z.ltb_ge. lia.
  - reflexivity.
  - intros Hnow. unfold issue, signToken.
    by apply (verifyToken_expired now _ _ (session identity (issued + ttl)) (issued + ttl)).
Qed.

(** What [POST /login] puts in the cookie is a token issued for twelve hours. *)
Lemma login_issues (now : Z) :
  login now DASH_USER DASH_PASS = Some (issue now DASH_USER TWELVE_HOURS)
  ∧ 0 < TWELVE_HOURS.
Proof. unfold login. rewrite !String.eqb_refl. split; [reflexivity|reflexivity]. Qed.

(** C3.  Take the token issued for any object.  Replacing its code by any
    other string, of the same length or not, gives a token that is
    refused; so does replacing its payload by a string whose code is not
    the code of the token (that two payloads differ in their codes is what
    HMAC provides, not the program). *)
Theorem tampered_token_refused (now : Z) (obj : json) (sig' payload' : string) :
  let payload := b64url (JSON_stringify obj) in
  let sig := hmac_sha256_base64url AUTH_SECRET payload in
  signToken obj = payload +:+ "." +:+ sig
  ∧ (sig' ≠ sig → verifyToken now (payload +:+ "." +:+ sig') = Normal None)
  ∧ (String.length sig' = String.length sig → sig' ≠ sig →
       verifyToken now (payload +:+ "." +:+ sig') = Normal None)
  ∧ (hmac_sha256_base64url AUTH_SECRET payload' ≠ sig →
       verifyToken now (payload' +:+ "." +:+ sig) = Normal None)
  ∧ (String.length payload' = String.length payload →
       hmac_sha256_base64url AUTH_SECRET payload' ≠ sig →
       verifyToken now (payload' +:+ "." +:+ sig) = Normal None).
Proof.
  cbv zeta. split_and!.
  - reflexivity.
  - apply verifyToken_wrong_code.
  - intros _. apply verifyToken_wrong_code.
  - intros Hcode. apply verifyToken_wrong_code. congruence.
  - intros _ Hcode. apply verifyToken_wrong_code. congruence.
Qed.
End TokenClaims.

(** ** The store and the fan-out *)

Lemma records_of_absent {V : Type} device (m : list (string * V)) :
  device ∉ Map_keys m → records_of device m = [].
Proof.
  unfold records_of, Map_keys. induction m as [|[k v] m IH]; [done|].
  intros Hin. rewrite filter_cons. cbn [map fst] in Hin.
  rewrite not_elem_of_cons in Hin. destruct Hin as [Hk Hm].
  rewrite decide_False by (simpl; congruence). auto.
Qed.

(** With unique keys, a device that has a record has exactly one. *)
Lemma records_of_one {V : Type} device (m : list (string * V)) v :
  NoDup (Map_keys m) → Map_get device m = Some v → records_of device m = [(device, v)].
Proof.
  unfold Map_keys. induction m as [|[k v'] m IH]; [done|].
  cbn [map fst Map_get]. intros [Hk Hm]%NoDup_cons.
  unfold records_of. rewrite filter_cons.
  destruct (decide (k = device)) as [->|Hne].
  - intros [= ->]. rewrite decide_True by done.
    f_equal. by apply records_of_absent.
  - intros Hget. rewrite decide_False by done. by apply IH.
Qed.

Section BridgeClaims.
Context `{Runtime} `{Config}.

Lemma received_pushed event obj clients heap res r :
  NoDup clients → heap !! res = Some r →
  res_written <$> deliver event obj clients heap !! res
  = Some (if bool_decide (res ∈ clients) && res_writable r
          then res_written r ++ sse_frame event obj else res_written r).
Proof.
  intros Hnd Hr. rewrite deliver_lookup by done. rewrite Hr.
  case_bool_decide; simpl; [|done]. by rewrite push_written.
Qed.

(** No handler takes a chunk back, and none sends a second [hello]. *)
Lemma handle_received ev st res chunks :
  invariant st → received st res = Some chunks →
  ∃ later, received (handle ev st) res = Some (chunks ++ later)
           ∧ Forall (λ chunk, chunk ≠ "event: hello" +:+ LF) later.
Proof.
  intros Hinv Hres. unfold received in *.
  destruct (responses st !! res) as [r|] eqn:Hr; [|discriminate].
  injection Hres as <-.
  assert (∀ heap, heap = responses st →
            ∃ later, res_written <$> heap !! res = Some (res_written r ++ later)
                     ∧ Forall (λ chunk, chunk ≠ "event: hello" +:+ LF) later) as Hsame.
  { intros heap ->. exists []. rewrite Hr, app_nil_r. auto. }
  destruct ev as [now topic payload|param|res'|res']; simpl.
  - destruct (on_message_cases now topic payload st) as [->|(dev & Hdev & Hne)]; [auto|].
    rewrite (on_message_stored _ _ _ _ _ Hdev Hne). simpl.
    destruct (Map_get dev (sseByDevice st)) as [clients|] eqn:Hclients; [|auto].
    apply Map_get_elem in Hclients.
    destruct (inv_clients _ Hinv _ _ Hclients) as [Hnd _].
    rewrite (received_pushed _ _ _ _ _ _ Hnd Hr).
    destruct (bool_decide (res ∈ clients) && res_writable r).
    + eexists. split; [reflexivity|].
      unfold sse_frame. repeat constructor; discriminate.
    + exists []. by rewrite app_nil_r.
  - destruct (decide (String_trim param = "")) as [Hempty|Hne].
    { unfold api_stream. apply String.eqb_eq in Hempty. rewrite Hempty. auto. }
    rewrite (api_stream_opened _ _ Hne). simpl.
    pose proof (lookup_lt_Some _ _ _ Hr) as Hlt.
    rewrite sseSend_lookup, decide_False by lia.
    rewrite lookup_app_l by done. auto.
  - rewrite list_lookup_alter. destruct (decide (res' = res)) as [->|]; [|auto].
    rewrite Hr. exists []. by rewrite app_nil_r.
  - unfold on_close. destruct (responses st !! res'); [|auto].
    destruct (Map_get _ _); auto.
Qed.

Lemma run_received evs st res chunks :
  invariant st → received st res = Some chunks →
  ∃ later, received (run evs st) res = Some (chunks ++ later)
           ∧ Forall (λ chunk, chunk ≠ "event: hello" +:+ LF) later.
Proof.
  unfold run. revert st chunks.
  induction evs as [|ev evs IH]; intros st chunks Hinv Hres; simpl.
  - exists []. by rewrite app_nil_r.
  - destruct (handle_received ev st res chunks Hinv Hres) as (mid & Hmid & Hmid').
    destruct (IH _ _ (invariant_handle ev st Hinv) Hmid) as (later & Hlater & Hlater').
    exists (mid ++ later). rewrite app_assoc. split; [done|].
    by apply Forall_app.
Qed.

(** What a message on the topic of a device leaves behind. *)
Lemma on_message_effect now topic payload st device :
  invariant st → getDeviceFromTopic topic = Some device → device ≠ "" →
  let record := record_of now topic payload in
  let st' := on_message now topic payload st in
  Map_get device (latestByDevice st') = Some record
  ∧ sseByDevice st' = sseByDevice st
  ∧ ∀ clients res r,
      Map_get device (sseByDevice st) = Some clients → res ∈ clients →
      responses st !! res = Some r →
      received st' res
      = Some (if res_writable r
              then res_written r ++ sse_frame "telemetry" (telemetry_json record)
              else res_written r).
Proof.
  intros Hinv Hdev Hne. cbv zeta. rewrite (on_message_stored _ _ _ _ _ Hdev Hne).
  unfold received. simpl. split_and!.
  - apply Map_get_set.
  - reflexivity.
  - intros clients res r Hclients Hin Hr. rewrite Hclients.
    apply Map_get_elem in Hclients.
    destruct (inv_clients _ Hinv _ _ Hclients) as [Hnd _].
    rewrite (received_pushed _ _ _ _ _ _ Hnd Hr).
    by rewrite bool_decide_true.
Qed.
End BridgeClaims.

Section StoreClaims.
Context `{Runtime} `{Config}.

(** C4.  In every state the process can reach, the keys of
    [latestByDevice] are distinct.  Setting the record of a device to [r1]
    and then to [r2] leaves [r2] as the record read for the device, and as
    the only record held for it.  So it is with two messages on topics of
    the same device: the record of the second is the one read. *)
Theorem last_write_wins (st : state) (device : string) (r1 r2 : telemetry) :
  reachable st →
  let store := Map_set device r2 (Map_set device r1 (latestByDevice st)) in
  NoDup (Map_keys (latestByDevice st))
  ∧ Map_get device store = Some r2
  ∧ records_of device store = [(device, r2)]
  ∧ NoDup (Map_keys store)
  ∧ ∀ now1 topic1 payload1 now2 topic2 payload2,
      getDeviceFromTopic topic1 = Some device →
      getDeviceFromTopic topic2 = Some device →
      device ≠ "" →
      let st' := on_message now2 topic2 payload2 (on_message now1 topic1 payload1 st) in
      Map_get device (latestByDevice st') = Some (record_of now2 topic2 payload2)
      ∧ records_of device (latestByDevice st')
        = [(device, record_of now2 topic2 payload2)].
Proof.
  intros Hst. apply reachable_invariant in Hst as Hinv. cbv zeta.
  pose proof (inv_latest_keys _ Hinv) as Hkeys.
  assert (∀ m : list (string * telemetry), NoDup (Map_keys m) →
            NoDup (Map_keys (Map_set device r2 (Map_set device r1 m)))) as Hnd.
  { intros m Hm. by do 2 apply Map_set_keys_NoDup. }
  split_and!; auto.
  - apply Map_get_set.
  - apply records_of_one; [auto|apply Map_get_set].
  - intros now1 topic1 payload1 now2 topic2 payload2 Hd1 Hd2 Hne.
    rewrite (on_message_stored now2 _ _ _ _ Hd2 Hne). simpl.
    rewrite (on_message_stored now1 _ _ _ _ Hd1 Hne). simpl.
    split; [apply Map_get_set|].
    apply records_of_one; [|apply Map_get_set].
    by do 2 apply Map_set_keys_NoDup.
Qed.

(** C5.  A message whose topic has fewer than three segments, or whose
    first segment is not the prefix, changes nothing: not the store, not
    the registry, and not what any subscriber has received. *)
Theorem unmatched_topic_discarded (st : state) (now : Z) (topic payload : string) :
  (length (split "/" topic) < 3)%nat ∨ nth 0 (split "/" topic) "" ≠ TOPIC_PREFIX →
  on_message now topic payload st = st
  ∧ handle (Message now topic payload) st = st
  ∧ ∀ res, received (on_message now topic payload st) res = received st res.
Proof.
  intros Htopic%getDeviceFromTopic_None.
  assert (on_message now topic payload st = st) as Hsame
    by (apply on_message_dropped; auto).
  simpl. rewrite Hsame. auto.
Qed.

(** C6, as amended.  A message on a topic that names a device, whose
    body read as UTF-8 is rejected by [JSON.parse], is kept: the record
    built for it has [parsed] [null] and, as [raw], the text that
    [payloadBuf.toString("utf8")] gives for the body; it becomes the
    record of the device, and nothing else of the store, the registry or
    the number of responses changes; and every subscriber of the device
    whose channel takes the write receives it as one [telemetry] event,
    after what it had received. *)
Theorem unparseable_body_kept (st : state) (now : Z) (topic payload device : string)
    (e : js_error) :
  reachable st →
  (3 ≤ length (split "/" topic))%nat →
  nth 0 (split "/" topic) "" = TOPIC_PREFIX →
  nth 1 (split "/" topic) "" = device →
  device ≠ "" →
  JSON_parse (Buffer_toString payload) = Throw e →
  let record := {| ts := now; topic := topic; raw := Buffer_toString payload;
                   parsed := JNull |} in
  let st' := on_message now topic payload st in
  st' = handle (Message now topic payload) st
  ∧ record_of now topic payload = record
  ∧ Map_get device (latestByDevice st') = Some record
  ∧ records_of device (latestByDevice st') = [(device, record)]
  ∧ sseByDevice st' = sseByDevice st
  ∧ length (responses st') = length (responses st)
  ∧ ∀ clients res,
      Map_get device (sseByDevice st) = Some clients → res ∈ clients →
      ∃ r, responses st !! res = Some r
           ∧ received st' res
             = Some (if res_writable r
                     then res_written r ++ sse_frame "telemetry" (telemetry_json record)
                     else res_written r).
Proof.
  intros Hst%reachable_invariant Hlen Hprefix Hdevice Hne Hparse. cbv zeta.
  assert (getDeviceFromTopic topic = Some device) as Hdev
    by (by apply getDeviceFromTopic_Some).
  destruct (on_message_effect now topic payload st device Hst Hdev Hne)
    as (Hget & Hsse & Hsent).
  assert (record_of now topic payload
          = {| ts := now; topic := topic; raw := Buffer_toString payload;
               parsed := JNull |}) as Hrec
    by (unfold record_of; by rewrite Hparse).
  rewrite Hrec in *. split_and!; [done|done|done| | done | |].
  - apply records_of_one; [|done].
    rewrite (on_message_stored _ _ _ _ _ Hdev Hne). simpl.
    apply Map_set_keys_NoDup, (inv_latest_keys _ Hst).
  - rewrite (on_message_stored _ _ _ _ _ Hdev Hne). simpl.
    destruct (Map_get device (sseByDevice st)); [apply deliver_length|done].
  - intros clients res Hclients Hin.
    destruct (inv_clients _ Hst _ _ (Map_get_elem _ _ _ Hclients)) as [_ Hlt].
    destruct (lookup_lt_is_Some_2 (responses st) res (Hlt _ Hin)) as [r Hr].
    exists r. split; [done|]. by apply (Hsent clients).
Qed.

(** C7, as amended.  The device of a request for a stream is the
    parameter of its path, trimmed.  When that is the empty string the
    request is answered 400 and nothing changes: no response is opened and
    no event is written.  Otherwise the request gets a new response, and
    the first thing written to it is one [hello] event, built from the
    store as it is then for the trimmed name: [hasLast] is [true] with the
    record when the store has one under that name, and [false] with [null]
    when it has none.  The response is then registered under that name, and
    the store is as it was.  Whatever happens afterwards, what the response
    has received starts with that event, and no other [hello] follows. *)
Theorem subscriber_greeted_first (st : state) (param : string) :
  reachable st →
  let device := String_trim param in
  let res := length (responses st) in
  let st' := fst (api_stream param st) in
  let snapshot :=
    match Map_get device (latestByDevice st) with
    | Some record =>
        JObj [("device", JStr device); ("hasLast", JBool true);
              ("last", telemetry_json record)]
    | None =>
        JObj [("device", JStr device); ("hasLast", JBool false); ("last", JNull)]
    end in
  (device = "" ∧ st' = st
   ∧ snd (api_stream param st) = ReplyJson 400 (JObj [("error", JStr "device required")]))
  ∨ (device ≠ ""
     ∧ snd (api_stream param st) = ReplyStream res
     ∧ received st res = None
     ∧ received st' res = Some (sse_frame "hello" snapshot)
     ∧ (∃ clients, Map_get device (sseByDevice st') = Some clients ∧ res ∈ clients)
     ∧ latestByDevice st' = latestByDevice st
     ∧ ∀ evs, ∃ later,
         received (run evs st') res = Some (sse_frame "hello" snapshot ++ later)
         ∧ Forall (λ chunk, chunk ≠ "event: hello" +:+ LF) later).
Proof.
  intros Hst%reachable_invariant. cbv zeta.
  destruct (decide (String_trim param = "")) as [Hempty|Hne].
  { left. split; [done|]. unfold api_stream.
    apply String.eqb_eq in Hempty. by rewrite Hempty. }
  right. split; [done|].
  pose proof (invariant_api_stream param st Hst) as Hinv'.
  assert (received (fst (api_stream param st)) (length (responses st))
          = Some (sse_frame "hello"
                    match Map_get (String_trim param) (latestByDevice st) with
                    | Some record =>
                        JObj [("device", JStr (String_trim param)); ("hasLast", JBool true);
                              ("last", telemetry_json record)]
                    | None =>
                        JObj [("device", JStr (String_trim param)); ("hasLast", JBool false);
                              ("last", JNull)]
                    end)) as Hhello.
  { rewrite (api_stream_opened _ _ Hne). unfold received. simpl.
    rewrite sseSend_lookup, decide_True by done.
    rewrite lookup_app_r by done. rewrite Nat.sub_diag. simpl.
    unfold hello, sse_frame.
    by destruct (Map_get (String_trim param) (latestByDevice st)). }
  split_and!.
  - by rewrite (api_stream_opened _ _ Hne).
  - unfold received. by rewrite lookup_ge_None_2.
  - done.
  - rewrite (api_stream_opened _ _ Hne). simpl.
    destruct (Map_has (String_trim param) (sseByDevice st)) eqn:Hhas.
    + unfold Map_has in Hhas.
      destruct (Map_get (String_trim param) (sseByDevice st)) as [set|]; [|discriminate].
      exists (Set_add (length (responses st)) set).
      split; [apply Map_get_set|]. apply Set_add_elem. auto.
    + rewrite Map_get_set. exists (Set_add (length (responses st)) []).
      split; [apply Map_get_set|]. apply Set_add_elem. auto.
  - by rewrite (api_stream_opened _ _ Hne).
  - intros evs. by apply run_received.
Qed.

(** C8, as amended.  Delivery never changes the registry: a subscriber
    whose channel fails the write stays registered (only the [close]
    handler of its request removes it), and nothing is written to it
    later in its place.  Every other subscriber of the device receives
    the record. *)
Theorem failed_write_is_ignored (st : state) (now : Z) (topic payload : string) :
  reachable st →
  let st' := on_message now topic payload st in
  sseByDevice st' = sseByDevice st
  ∧ ∀ device clients res r,
      getDeviceFromTopic topic = Some device → device ≠ "" →
      Map_get device (sseByDevice st) = Some clients → res ∈ clients →
      responses st !! res = Some r →
      Map_get device (sseByDevice st') = Some clients
      ∧ received st' res
        = Some (if res_writable r
                then res_written r
                     ++ sse_frame "telemetry"
                          (telemetry_json (record_of now topic payload))
                else res_written r).
Proof.
  intros Hst%reachable_invariant. cbv zeta. split.
  - destruct (on_message_cases now topic payload st) as [->|(dev & Hdev & Hne)]; [done|].
    by rewrite (on_message_stored _ _ _ _ _ Hdev Hne).
  - intros device clients res r Hdev Hne Hclients Hin Hr.
    destruct (on_message_effect now topic payload st device Hst Hdev Hne)
      as (_ & -> & Hsent).
    split; [done|]. by apply (Hsent clients).
Qed.

(** C10.  A message whose topic starts with the prefix and has three
    segments or more, the second of them empty, changes nothing; and in
    no state the process can reach is the empty string a device of the
    store or of the registry. *)
Theorem empty_device_discarded (st : state) (now : Z) (topic payload : string) :
  reachable st →
  (3 ≤ length (split "/" topic))%nat →
  nth 0 (split "/" topic) "" = TOPIC_PREFIX →
  nth 1 (split "/" topic) "" = "" →
  on_message now topic payload st = st
  ∧ Map_get "" (latestByDevice st) = None
  ∧ ("" ∉ Map_keys (latestByDevice st))
  ∧ ("" ∉ Map_keys (sseByDevice st)).
Proof.
  intros Hst%reachable_invariant Hlen Hprefix Hdevice.
  pose proof (inv_latest_named _ Hst) as Hnamed. split_and!.
  - apply on_message_dropped. right. by apply getDeviceFromTopic_Some.
  - destruct (Map_get "" (latestByDevice st)) eqn:Hget; [|done].
    exfalso. apply Hnamed, Map_get_keys. rewrite Hget. eauto.
  - done.
  - apply (inv_sse_named _ Hst).
Qed.

(** [GET /api/devices] lists the devices of the store in order. *)
Lemma api_devices_sorted (st : state) :
  Sorted utf16_le (api_devices st)
  ∧ api_devices st ≡ₚ Map_keys (latestByDevice st).
Proof.
  unfold api_devices. split.
  - apply Sorted_merge_sort. apply _.
  - apply merge_sort_Permutation.
Qed.
End StoreClaims.

(** ** UTF-8 on Node *)

Lemma text_of_bytes bs :
  Forall (λ b, 0 ≤ b < 256) bs →
  map (λ c, Z.of_N (N_of_ascii c)) (list_ascii_of_string (Node.text_of bs)) = bs.
Proof.
  unfold Node.text_of. rewrite list_ascii_of_string_of_list_ascii.
  induction 1 as [|b bs Hb _ IH]; simpl; [done|].
  rewrite IH. f_equal. unfold Node.char_of.
  rewrite N_ascii_embedding by lia. lia.
Qed.

Ltac by_division := Z.div_mod_to_equations; lia.

(** Settles the comparisons of the decoder one by one. *)
Ltac compare_bytes :=
  repeat
    (match goal with
     | |- context [(?a <? ?b)] =>
         first [ replace (a <? b) with true by (symmetry; apply Z.ltb_lt; by_division)
               | replace (a <? b) with false by (symmetry; apply Z.ltb_ge; by_division) ]
     | |- context [(?a <=? ?b)] =>
         first [ replace (a <=? b) with true by (symmetry; apply Z.leb_le; by_division)
               | replace (a <=? b) with false by (symmetry; apply Z.leb_gt; by_division) ]
     | |- context [(?a =? ?b)] =>
         first [ replace (a =? b) with true by (symmetry; apply Z.eqb_eq; by_division)
               | replace (a =? b) with false by (symmetry; apply Z.eqb_neq; by_division)
               | destruct (Z.eqb_spec a b) ]
     end; cbn [andb needed begun lower upper]).

(** The bytes of a code point are read back as that code point. *)
Lemma utf8_bytes_decoded cp rest :
  scalar_value cp →
  utf8_code_points None (Node.utf8_bytes cp ++ rest) = cp :: utf8_code_points None rest.
Proof.
  intros Hcp. unfold scalar_value in Hcp. unfold Node.utf8_bytes.
  destruct (Z.ltb_spec cp 128);
    [|destruct (Z.ltb_spec cp 2048); [|destruct (Z.ltb_spec cp 65536)]];
    cbn [app utf8_code_points]; unfold utf8_lead.
  - compare_bytes. done.
  - compare_bytes. f_equal. by_division.
  - compare_bytes; f_equal; by_division.
  - compare_bytes; f_equal; by_division.
Qed.

Lemma utf8_bytes_range cp :
  scalar_value cp → Forall (λ b, 0 ≤ b < 256) (Node.utf8_bytes cp).
Proof.
  intros Hcp. unfold scalar_value in Hcp. unfold Node.utf8_bytes.
  destruct (Z.ltb_spec cp 128);
    [|destruct (Z.ltb_spec cp 2048); [|destruct (Z.ltb_spec cp 65536)]];
    repeat constructor; by_division.
Qed.

Lemma utf8_encode_decoded cps :
  Forall scalar_value cps → code_points (Node.utf8_encode cps) = cps.
Proof.
  intros Hcps. unfold code_points, Node.utf8_encode. rewrite text_of_bytes.
  - induction Hcps as [|cp cps Hcp _ IH]; [done|].
    cbn [map concat]. by rewrite utf8_bytes_decoded, IH.
  - induction Hcps as [|cp cps Hcp _ IH]; [constructor|].
    cbn [map concat]. apply Forall_app. split; [by apply utf8_bytes_range|done].
Qed.

(** A buffer that holds the UTF-8 of a text is read as that text. *)
Lemma to_utf8_string_encoded cps :
  Forall scalar_value cps →
  Node.to_utf8_string (Node.utf8_encode cps) = Node.utf8_encode cps.
Proof. intros Hcps. unfold Node.to_utf8_string. by rewrite utf8_encode_decoded. Qed.

(** ** On Node, with the default configuration *)

Ltac by_running := vm_compute; reflexivity.

Section OnNode.
#[local] Existing Instance Node.runtime.
#[local] Existing Instance Node.defaults.

Lemma sample_token_signed : signToken (session "admin" 1000) = Sample.token.
Proof. by_running. Qed.

(** At the very millisecond of its [exp] the token still verifies. *)
Lemma verifyToken_accepts_at_expiry :
  verifyToken 1000 Sample.token = Normal (Some (session "admin" 1000))
  ∧ get_property (session "admin" 1000) "exp" = Normal (Some (JNum 1000))
  ∧ (1000 <? 1000) = false.
Proof. split_and!; by_running. Qed.

Lemma verifyToken_valid_only_if_witness :
  verifyToken 999 Sample.token = Normal (Some (session "admin" 1000))
  ∧ 999 ≤ 1000
  ∧ verifyToken 1001 Sample.token = Normal None
  ∧ verifyToken 999 "eyJ1IjoiYWRtaW4iLCJleHAiOjEwMDB9" = Normal None.
Proof.
  destruct (verifyToken_valid_only_if 999 Sample.token) as (_ & Hvalid & _).
  destruct (verifyToken_valid_only_if 1001 Sample.token) as (_ & _ & _ & _ & _ & Hlate).
  destruct (verifyToken_valid_only_if 999 "eyJ1IjoiYWRtaW4iLCJleHAiOjEwMDB9")
    as (_ & _ & Hform & _).
  assert (verifyToken 999 Sample.token = Normal (Some (session "admin" 1000))) as Hok
    by by_running.
  split_and!; [exact Hok| | |].
  - destruct (Hvalid _ Hok) as (payload & sig & exp & _ & _ & _ & Hexp & _ & _ & Hnum).
    apply (Hnum 1000). simpl in Hexp. congruence.
  - apply (Hlate "eyJ1IjoiYWRtaW4iLCJleHAiOjEwMDB9"
                 "SqRephW98eyseUR3LJ_dY3SEtKbtd-iclNU-7Wolcy8"
                 (session "admin" 1000) 1000).
    + reflexivity.
    + by_running.
    + reflexivity.
    + lia.
  - apply Hform. right. vm_compute. lia.
Defined.

(** A token signed for an object whose [exp] is [{}] verifies at every
    time tried: [now > {}] is false. *)
Lemma object_exp_is_never_exceeded :
  verifyToken 0 Sample.never_expires
  = Normal (Some (JObj [("u", JStr "admin"); ("exp", JObj [])]))
  ∧ verifyToken (2 ^ 62) Sample.never_expires
    = Normal (Some (JObj [("u", JStr "admin"); ("exp", JObj [])])).
Proof. split; by_running. Qed.

(** A token issued at 1000 for 5 ms still verifies when the 5 ms have
    elapsed. *)
Lemma verifies_when_ttl_has_elapsed :
  verifyToken (1000 + 5) (issue 1000 "admin" 5) = Normal (Some (session "admin" 1005)).
Proof. by_running. Qed.

Lemma session_round_trips : round_trips (session "admin" 1005).
Proof. unfold round_trips. split_and!; by_running. Qed.

Lemma issue_then_verify_witness :
  0 < 5 ∧ 0 ≤ 1000 ∧ round_trips (session "admin" (1000 + 5))
  ∧ verifyToken 1003 (issue 1000 "admin" 5) = Normal (Some (session "admin" (1000 + 5)))
  ∧ verifyToken 1006 (issue 1000 "admin" 5) = Normal None.
Proof.
  assert (0 < 5) as Httl by lia. assert (0 ≤ 1000) as Hissued by lia.
  pose proof session_round_trips as Htrip.
  destruct (issue_then_verify 1000 1003 5 "admin" Httl Hissued Htrip) as (Hvalid & _ & _).
  destruct (issue_then_verify 1000 1006 5 "admin" Httl Hissued Htrip) as (_ & _ & Hlate).
  split_and!; [done|done|done|apply Hvalid; lia|apply Hlate; lia].
Defined.

(** The last character of the code, [8], becomes [9]: one bit flipped,
    the length kept.  The payload of another expiry has the same length. *)
Lemma tampered_token_refused_witness :
  "SqRephW98eyseUR3LJ_dY3SEtKbtd-iclNU-7Wolcy9"
    ≠ hmac_sha256_base64url AUTH_SECRET (b64url (JSON_stringify (session "admin" 1000)))
  ∧ verifyToken 999 ("eyJ1IjoiYWRtaW4iLCJleHAiOjEwMDB9"
                       +:+ "." +:+ "SqRephW98eyseUR3LJ_dY3SEtKbtd-iclNU-7Wolcy9")
    = Normal None
  ∧ b64url (JSON_stringify (session "admin" 9000)) = "eyJ1IjoiYWRtaW4iLCJleHAiOjkwMDB9"
  ∧ verifyToken 999 ("eyJ1IjoiYWRtaW4iLCJleHAiOjkwMDB9"
                       +:+ "." +:+ "SqRephW98eyseUR3LJ_dY3SEtKbtd-iclNU-7Wolcy8")
    = Normal None.
Proof.
  destruct (tampered_token_refused 999 (session "admin" 1000)
              "SqRephW98eyseUR3LJ_dY3SEtKbtd-iclNU-7Wolcy9"
              "eyJ1IjoiYWRtaW4iLCJleHAiOjkwMDB9")
    as (_ & _ & Hcode & _ & Hpayload).
  assert ("SqRephW98eyseUR3LJ_dY3SEtKbtd-iclNU-7Wolcy9"
          ≠ hmac_sha256_base64url AUTH_SECRET
              (b64url (JSON_stringify (session "admin" 1000)))) as Hflip.
  { apply String.eqb_neq. by_running. }
  split_and!.
  - exact Hflip.
  - apply Hcode; [by_running|exact Hflip].
  - by_running.
  - apply Hpayload; [by_running|].
    apply String.eqb_neq. by_running.
Defined.

Lemma sample_reachable evs : reachable (run evs initial).
Proof. apply reachable_run, reachable_initial. Qed.

Lemma last_write_wins_witness :
  reachable Sample.one_record
  ∧ Map_get "sensor1"
      (Map_set "sensor1" (record_of 7 "embarcatech/sensor1/telemetry" "7")
         (Map_set "sensor1" (record_of 6 "embarcatech/sensor1/telemetry" "6")
            (latestByDevice Sample.one_record)))
    = Some (record_of 7 "embarcatech/sensor1/telemetry" "7")
  ∧ Map_get "sensor1"
      (latestByDevice
         (on_message 7 "embarcatech/sensor1/telemetry" "7"
            (on_message 6 "embarcatech/sensor1/telemetry" "6" Sample.one_record)))
    = Some (record_of 7 "embarcatech/sensor1/telemetry" "7").
Proof.
  pose proof (sample_reachable [Message 5 "embarcatech/sensor1/telemetry" "[21,5]"])
    as Hst.
  destruct (last_write_wins Sample.one_record "sensor1"
              (record_of 6 "embarcatech/sensor1/telemetry" "6")
              (record_of 7 "embarcatech/sensor1/telemetry" "7") Hst)
    as (_ & Hget & _ & _ & Hmessages).
  split_and!; [exact Hst|exact Hget|].
  apply Hmessages; [by_running|by_running|discriminate].
Defined.

Lemma unmatched_topic_discarded_witness :
  nth 0 (split "/" "other/sensor1/telemetry") "" ≠ TOPIC_PREFIX
  ∧ (length (split "/" "embarcatech/sensor1") < 3)%nat
  ∧ on_message 9 "other/sensor1/telemetry" "[21,5]" Sample.lost_subscriber
    = Sample.lost_subscriber
  ∧ on_message 9 "embarcatech/sensor1" "[21,5]" Sample.lost_subscriber
    = Sample.lost_subscriber.
Proof.
  assert (nth 0 (split "/" "other/sensor1/telemetry") "" ≠ TOPIC_PREFIX) as Hprefix
    by (vm_compute; discriminate).
  assert (length (split "/" "embarcatech/sensor1") < 3)%nat as Hshort
    by (vm_compute; lia).
  split_and!; [exact Hprefix|exact Hshort| |].
  - apply (unmatched_topic_discarded Sample.lost_subscriber 9
             "other/sensor1/telemetry" "[21,5]"). right. exact Hprefix.
  - apply (unmatched_topic_discarded Sample.lost_subscriber 9
             "embarcatech/sensor1" "[21,5]"). left. exact Hshort.
Defined.

(** The body [not json] is UTF-8 as it stands: it is the [raw] of the
    record stored, and the second subscriber of [sensor1], whose channel
    is open, receives the record after its [hello]. *)
Lemma unparseable_body_kept_witness :
  reachable Sample.lost_subscriber
  ∧ JSON_parse (Buffer_toString "not json") = Throw SyntaxError
  ∧ Map_get "sensor1"
      (latestByDevice
         (on_message 9 "embarcatech/sensor1/telemetry" "not json" Sample.lost_subscriber))
    = Some {| ts := 9; topic := "embarcatech/sensor1/telemetry";
              raw := "not json"; parsed := JNull |}
  ∧ received
      (on_message 9 "embarcatech/sensor1/telemetry" "not json" Sample.lost_subscriber) 1
    = Some (sse_frame "hello"
              (JObj [("device", JStr "sensor1"); ("hasLast", JBool false);
                     ("last", JNull)])
            ++ sse_frame "telemetry"
                 (telemetry_json
                    {| ts := 9; topic := "embarcatech/sensor1/telemetry";
                       raw := "not json"; parsed := JNull |})).
Proof.
  pose proof (sample_reachable
                [Subscribe "sensor1"; Subscribe "sensor1"; ConnectionLost 0]) as Hst.
  assert (JSON_parse (Buffer_toString "not json") = Throw SyntaxError) as Hparse
    by by_running.
  assert ((3 ≤ length (split "/" "embarcatech/sensor1/telemetry"))%nat) as Hlen
    by (vm_compute; lia).
  assert (nth 0 (split "/" "embarcatech/sensor1/telemetry") "" = TOPIC_PREFIX)
    as Hprefix by by_running.
  assert (nth 1 (split "/" "embarcatech/sensor1/telemetry") "" = "sensor1")
    as Hdevice by by_running.
  assert ("sensor1" ≠ "") as Hnamed by discriminate.
  destruct (unparseable_body_kept Sample.lost_subscriber 9
              "embarcatech/sensor1/telemetry" "not json" "sensor1" SyntaxError
              Hst Hlen Hprefix Hdevice Hnamed Hparse)
    as (_ & _ & Hget & _ & _ & _ & Hsent).
  assert (Map_get "sensor1" (sseByDevice Sample.lost_subscriber)
          = Some [0%nat; 1%nat]) as Hclients by by_running.
  assert (1%nat ∈ [0%nat; 1%nat]) as Hin by (apply list_elem_of_In; simpl; auto).
  destruct (Hsent [0%nat; 1%nat] 1%nat Hclients Hin) as (r & Hr & Hreceived).
  assert (∃ r', responses Sample.lost_subscriber !! 1%nat = Some r'
                ∧ res_writable r' = true
                ∧ res_written r'
                  = sse_frame "hello"
                      (JObj [("device", JStr "sensor1"); ("hasLast", JBool false);
                             ("last", JNull)])) as (r' & Hr' & Hwritable & Hwritten).
  { eexists. split; [by_running|]. split; reflexivity. }
  rewrite Hr' in Hr. injection Hr as <-.
  rewrite Hwritable, Hwritten in Hreceived.
  split_and!; [exact Hst|exact Hparse|exact Hget|exact Hreceived].
Defined.

(** A body that is not UTF-8 is not the [raw] of its record: for the
    single byte FF the record holds U+FFFD. *)
Lemma ill_formed_body_is_replaced :
  getDeviceFromTopic "embarcatech/sensor1/telemetry" = Some "sensor1"
  ∧ Map_get "sensor1"
      (latestByDevice
         (on_message 9 "embarcatech/sensor1/telemetry" Sample.ill_formed_body initial))
    = Some {| ts := 9; topic := "embarcatech/sensor1/telemetry";
              raw := Sample.replacement_character; parsed := JNull |}
  ∧ (Sample.replacement_character =? Sample.ill_formed_body)%string = false.
Proof. split_and!; by_running. Qed.

(** A body that is the UTF-8 of a text is the [raw] of its record. *)
Lemma text_body_is_raw now topic cps :
  Forall scalar_value cps →
  raw (record_of now topic (Node.utf8_encode cps)) = Node.utf8_encode cps.
Proof. apply to_utf8_string_encoded. Qed.

(** With one record stored for [sensor1]: a request for [sensor1] between
    spaces is greeted with that record, a request for [sensor2] with none,
    and a request for a blank name is answered 400. *)
Lemma subscriber_greeted_first_witness :
  reachable Sample.one_record
  ∧ received (fst (api_stream " sensor1 " Sample.one_record)) 0
    = Some (sse_frame "hello"
              (JObj [("device", JStr "sensor1"); ("hasLast", JBool true);
                     ("last", telemetry_json
                                {| ts := 5; topic := "embarcatech/sensor1/telemetry";
                                   raw := "[21,5]";
                                   parsed := JArr [JNum 21; JNum 5] |})]))
  ∧ received (fst (api_stream "sensor2" Sample.one_record)) 0
    = Some (sse_frame "hello"
              (JObj [("device", JStr "sensor2"); ("hasLast", JBool false);
                     ("last", JNull)]))
  ∧ snd (api_stream "  " Sample.one_record)
    = ReplyJson 400 (JObj [("error", JStr "device required")]).
Proof.
  pose proof (sample_reachable [Message 5 "embarcatech/sensor1/telemetry" "[21,5]"])
    as Hst.
  destruct (subscriber_greeted_first Sample.one_record " sensor1 " Hst)
    as [(Hblank & _)|(_ & _ & _ & Hhello & _)];
    [vm_compute in Hblank; discriminate|].
  destruct (subscriber_greeted_first Sample.one_record "sensor2" Hst)
    as [(Hblank & _)|(_ & _ & _ & Hhello' & _)];
    [vm_compute in Hblank; discriminate|].
  destruct (subscriber_greeted_first Sample.one_record "  " Hst)
    as [(_ & _ & Hreply)|(Hnamed & _)];
    [|exfalso; apply Hnamed; by_running].
  split_and!; [exact Hst|exact Hhello|exact Hhello'|exact Hreply].
Defined.

(** A record is stored for the device [ s1 ], named with its spaces by
    the topic; the request for the stream of [ s1 ] is greeted for [s1],
    with no record. *)
Lemma stored_device_greeted_without_record :
  Map_get " s1 " (latestByDevice Sample.spaced_device)
  = Some {| ts := 5; topic := "embarcatech/ s1 /telemetry";
            raw := "[21,5]"; parsed := JArr [JNum 21; JNum 5] |}
  ∧ received (fst (api_stream " s1 " Sample.spaced_device)) 0
    = Some (sse_frame "hello"
              (JObj [("device", JStr "s1"); ("hasLast", JBool false);
                     ("last", JNull)])).
Proof. split; by_running. Qed.

(** The first subscriber of [sensor1] has lost its connection.  The
    message is not written to it, and it is still registered afterwards. *)
Lemma failed_write_keeps_subscriber :
  received Sample.lost_subscriber 0
  = Some (sse_frame "hello"
            (JObj [("device", JStr "sensor1"); ("hasLast", JBool false);
                   ("last", JNull)]))
  ∧ received (on_message 9 "embarcatech/sensor1/telemetry" "[21,5]"
                Sample.lost_subscriber) 0
    = received Sample.lost_subscriber 0
  ∧ Map_get "sensor1"
      (sseByDevice (on_message 9 "embarcatech/sensor1/telemetry" "[21,5]"
                      Sample.lost_subscriber))
    = Some [0%nat; 1%nat].
Proof. split_and!; by_running. Qed.

Lemma failed_write_is_ignored_witness :
  reachable Sample.lost_subscriber
  ∧ sseByDevice (on_message 9 "embarcatech/sensor1/telemetry" "[21,5]"
                   Sample.lost_subscriber)
    = sseByDevice Sample.lost_subscriber
  ∧ received (on_message 9 "embarcatech/sensor1/telemetry" "[21,5]"
                Sample.lost_subscriber) 1
    = Some (sse_frame "hello"
              (JObj [("device", JStr "sensor1"); ("hasLast", JBool false);
                     ("last", JNull)])
            ++ sse_frame "telemetry"
                 (telemetry_json (record_of 9 "embarcatech/sensor1/telemetry" "[21,5]"))).
Proof.
  pose proof (sample_reachable
                [Subscribe "sensor1"; Subscribe "sensor1"; ConnectionLost 0]) as Hst.
  destruct (failed_write_is_ignored Sample.lost_subscriber 9
              "embarcatech/sensor1/telemetry" "[21,5]" Hst) as (Hregistry & Hsent).
  split_and!; [exact Hst|exact Hregistry|].
  assert (∃ r, responses Sample.lost_subscriber !! 1%nat = Some r
               ∧ res_writable r = true
               ∧ res_written r
                 = sse_frame "hello"
                     (JObj [("device", JStr "sensor1"); ("hasLast", JBool false);
                            ("last", JNull)])) as (r & Hr & Hwritable & Hwritten).
  { eexists. split; [by_running|]. split; reflexivity. }
  assert (1%nat ∈ [0%nat; 1%nat]) as Hin by (apply list_elem_of_In; simpl; auto).
  assert (getDeviceFromTopic "embarcatech/sensor1/telemetry" = Some "sensor1") as Hdev
    by by_running.
  assert (Map_get "sensor1" (sseByDevice Sample.lost_subscriber)
          = Some [0%nat; 1%nat]) as Hclients by by_running.
  assert ("sensor1" ≠ "") as Hnamed by discriminate.
  destruct (Hsent "sensor1" [0%nat; 1%nat] 1%nat r Hdev Hnamed Hclients Hin Hr)
    as [_ Hreceived].
  rewrite Hreceived, Hwritable, Hwritten. reflexivity.
Defined.

(** C9, on the code.  After telemetry of [b] and then of [a],
    [GET /api/state] lists the devices as they arrived, [b] before [a],
    while [GET /api/devices] lists the same devices in order. *)
Theorem api_state_lists_in_arrival_order :
  devices (api_state true Sample.b_then_a) = ["b"; "a"]
  ∧ api_devices Sample.b_then_a = ["a"; "b"].
Proof. split; by_running. Qed.

Lemma empty_device_discarded_witness :
  reachable Sample.lost_subscriber
  ∧ nth 1 (split "/" "embarcatech//telemetry") "" = ""
  ∧ on_message 9 "embarcatech//telemetry" "[21,5]" Sample.lost_subscriber
    = Sample.lost_subscriber.
Proof.
  pose proof (sample_reachable
                [Subscribe "sensor1"; Subscribe "sensor1"; ConnectionLost 0]) as Hst.
  assert (nth 1 (split "/" "embarcatech//telemetry") "" = "") as Hempty
    by by_running.
  split_and!; [exact Hst|exact Hempty|].
  apply (empty_device_discarded Sample.lost_subscriber 9
           "embarcatech//telemetry" "[21,5]" Hst).
  - vm_compute. lia.
  - by_running.
  - exact Hempty.
Defined.
End OnNode.

(** * More of the program *)

(** ** Strings and arrays *)

Lemma split_parts_clean sep s part : part ∈ split sep s → occurs sep part = false.
Proof.
  revert part. induction s as [|c s IH]; simpl; intros part Hin.
  - apply list_elem_of_singleton in Hin as ->. reflexivity.
  - destruct (c =? sep)%char eqn:Hc.
    + apply elem_of_cons in Hin as [->|Hin]; [reflexivity|auto].
    + destruct (split sep s) as [|p ps] eqn:Hsplit.
      * destruct (split_nonempty _ _ Hsplit).
      * apply elem_of_cons in Hin as [->|Hin].
        -- simpl. rewrite Hc. apply IH. left.
        -- apply IH. right. done.
Qed.

Lemma occurs_append c a b : occurs c (a +:+ b) = occurs c a || occurs c b.
Proof.
  induction a as [|d a IH]; simpl; [reflexivity|].
  change (String.app a b) with (a +:+ b). rewrite IH. by rewrite orb_assoc.
Qed.

Lemma Array_join_cons c part parts :
  Array_join (String c "") (String c part :: parts) = String c (Array_join (String c "") (part :: parts))
  ∧ ∀ d, Array_join (String c "") (String d part :: parts)
         = String d (Array_join (String c "") (part :: parts)).
Proof. split; [|intros d]; destruct parts; reflexivity. Qed.

(** Joining the parts of a split by the separator gives the string back. *)
Lemma Array_join_split sep s : Array_join (String sep "") (split sep s) = s.
Proof.
  induction s as [|c s IH]; simpl; [reflexivity|].
  pose proof (split_nonempty sep s) as Hne.
  destruct (c =? sep)%char eqn:Hc.
  - apply Ascii.eqb_eq in Hc as ->.
    destruct (split sep s) as [|p ps]; [done|].
    change (Array_join (String sep "") ("" :: p :: ps))
      with (String sep (Array_join (String sep "") (p :: ps))).
    by rewrite IH.
  - destruct (split sep s) as [|p ps]; [done|].
    rewrite (proj2 (Array_join_cons sep p ps) c). by rewrite IH.
Qed.

Lemma nth_split_elem sep s i :
  (i < length (split sep s))%nat → nth i (split sep s) "" ∈ split sep s.
Proof. intros Hlt. apply list_elem_of_In, nth_In, Hlt. Qed.

(** ** The registry invariant *)

Section RegistryFacts.
Context `{Runtime} `{Config}.

Lemma push_device event obj r : res_device (push event obj r) = res_device r.
Proof. unfold push, res_write. by destruct r as [d h w []]. Qed.

Lemma sseSend_device res event obj heap i r' :
  sseSend res event obj heap !! i = Some r' →
  ∃ r, heap !! i = Some r ∧ res_device r' = res_device r.
Proof.
  rewrite sseSend_lookup. destruct (decide (i = res)) as [->|]; [|eauto].
  destruct (heap !! res) as [r|]; [|discriminate].
  intros [= <-]. exists r. split; [done|apply push_device].
Qed.

Lemma sseSend_device_back res event obj heap i r :
  heap !! i = Some r →
  ∃ r', sseSend res event obj heap !! i = Some r' ∧ res_device r' = res_device r.
Proof.
  intros Hr. rewrite sseSend_lookup, Hr. destruct (decide (i = res)); simpl; [|eauto].
  eexists. split; [done|apply push_device].
Qed.

Lemma deliver_device_back event obj clients heap i r :
  heap !! i = Some r →
  ∃ r', deliver event obj clients heap !! i = Some r' ∧ res_device r' = res_device r.
Proof.
  unfold deliver. revert heap r. induction clients as [|c cs IH]; intros heap r Hr; simpl.
  - eauto.
  - destruct (sseSend_device_back c event obj heap i r Hr) as (r1 & Hr1 & Hd1).
    destruct (IH _ _ Hr1) as (r2 & Hr2 & Hd2). exists r2. split; [done|congruence].
Qed.

(** With unique keys, an entry of the map after [set] is the one set, or
    an entry of another key. *)
Lemma Map_set_elem_unique {V} (m : list (string * V)) k v k' v' :
  NoDup (Map_keys m) → (k', v') ∈ Map_set k v m →
  (k' = k ∧ v' = v) ∨ (k' ≠ k ∧ (k', v') ∈ m).
Proof.
  unfold Map_keys. induction m as [|[k0 v0] m IH]; cbn [Map_set map fst].
  - intros _ [= -> ->]%list_elem_of_singleton. auto.
  - intros [Hk0 Hm]%NoDup_cons. destruct (decide (k0 = k)) as [->|Hne].
    + intros [[= -> ->]|Hin]%elem_of_cons; [auto|]. right. split; [|by right].
      intros ->. apply Hk0. apply (list_elem_of_fmap_2 fst _ _ Hin).
    + intros [[= -> ->]|Hin]%elem_of_cons; [right; split; [done|left]|].
      destruct (IH Hm Hin) as [?|[? ?]]; [auto|]. right. split; [done|by right].
Qed.

(** With unique keys, [delete] leaves no entry of the key. *)
Lemma Map_delete_elem_unique {V} (m : list (string * V)) k k' v' :
  NoDup (Map_keys m) → (k', v') ∈ Map_delete k m → k' ≠ k ∧ (k', v') ∈ m.
Proof.
  unfold Map_keys. induction m as [|[k0 v0] m IH]; cbn [Map_delete map fst].
  - intros _ Hin. inversion Hin.
  - intros [Hk0 Hm]%NoDup_cons. destruct (decide (k0 = k)) as [->|Hne].
    + intros Hin. split; [|by right].
      intros ->. apply Hk0. apply (list_elem_of_fmap_2 fst _ _ Hin).
    + intros [[= -> ->]|Hin]%elem_of_cons; [split; [done|left]|].
      destruct (IH Hm Hin). split; [done|by right].
Qed.

Lemma Set_delete_gone (s : list nat) x : NoDup s → x ∉ Set_delete x s.
Proof.
  induction s as [|y s IH]; simpl; [intros _ Hin; inversion Hin|].
  intros [Hy Hs]%NoDup_cons. destruct (decide (y = x)) as [->|Hne]; [done|].
  rewrite not_elem_of_cons. split; [congruence|auto].
Qed.

Lemma Set_delete_other (s : list nat) x y : y ∈ s → y ≠ x → y ∈ Set_delete x s.
Proof.
  induction s as [|z s IH]; simpl; [done|].
  intros [->|Hin]%elem_of_cons Hne.
  - rewrite decide_False by done. left.
  - destruct (decide (z = x)); [done|]. right. auto.
Qed.

Lemma registry_invariant_initial : registry_invariant initial.
Proof. split; simpl; intros; match goal with H : _ ∈ [] |- _ => inversion H end. Qed.

Lemma registry_invariant_on_message now topic payload st :
  registry_invariant st → registry_invariant (on_message now topic payload st).
Proof.
  intros [R1 R2 R3].
  destruct (on_message_cases now topic payload st) as [->|(dev & Hdev & Hne)]; [done|].
  rewrite (on_message_stored _ _ _ _ _ Hdev Hne). split; simpl; auto.
  - intros device clients res Hin Hres. destruct (R2 _ _ _ Hin Hres) as (r & Hr & Hd).
    destruct (Map_get dev (sseByDevice st)); [|eauto].
    destruct (deliver_device_back "telemetry"
                (telemetry_json (record_of now topic payload)) l _ _ _ Hr)
      as (r' & Hr' & Hd').
    exists r'. split; [done|congruence].
  - intros device [->|Hin]%Map_set_keys_elem; [|auto].
    apply getDeviceFromTopic_Some in Hdev as (Hlen & _ & <-).
    apply (split_parts_clean "/" topic), nth_split_elem. lia.
Qed.

Lemma registry_invariant_api_stream param st :
  invariant st → registry_invariant st → registry_invariant (fst (api_stream param st)).
Proof.
  intros Hinv [R1 R2 R3]. destruct (decide (String_trim param = "")) as [Hempty|Hne].
  { unfold api_stream. apply String.eqb_eq in Hempty. rewrite Hempty. done. }
  rewrite (api_stream_opened _ _ Hne). cbv zeta. cbn [fst].
  set (device := String_trim param) in *.
  set (fresh := {| res_device := device; res_headers := _; res_written := [];
                   res_writable := true |}).
  assert (∀ i r, (responses st ++ [fresh]) !! i = Some r →
            ∃ r', sseSend (length (responses st)) "hello"
                    (hello device (Map_get device (latestByDevice st)))
                    (responses st ++ [fresh]) !! i = Some r'
                  ∧ res_device r' = res_device r) as Hheap.
  { intros i r. apply sseSend_device_back. }
  assert (∀ d clients res,
            (d, clients) ∈ sseByDevice st → res ∈ clients →
            ∃ r', sseSend (length (responses st)) "hello"
                    (hello device (Map_get device (latestByDevice st)))
                    (responses st ++ [fresh]) !! res = Some r'
                  ∧ res_device r' = d) as Hold.
  { intros d clients res Hin Hres. destruct (R2 _ _ _ Hin Hres) as (r & Hr & Hd).
    destruct (Hheap res r) as (r' & Hr' & Hd').
    { rewrite lookup_app_l; [done|]. by apply lookup_lt_Some in Hr. }
    exists r'. split; [done|congruence]. }
  assert (∃ r', sseSend (length (responses st)) "hello"
                  (hello device (Map_get device (latestByDevice st)))
                  (responses st ++ [fresh]) !! length (responses st) = Some r'
                ∧ res_device r' = device) as Hnew.
  { apply (Hheap _ fresh). rewrite lookup_app_r by done. by rewrite Nat.sub_diag. }
  clearbody fresh. unfold Map_has.
  destruct (Map_get device (sseByDevice st)) as [set|] eqn:Hset; simpl.
  - rewrite Hset. apply Map_get_elem in Hset. split; simpl; auto.
    + intros d clients [[-> ->]|Hin]%Map_set_elem; [|eauto].
      intros Hnil. assert (length (responses st) ∈ Set_add (length (responses st)) set) as Hin
        by (apply Set_add_elem; auto). rewrite Hnil in Hin. inversion Hin.
    + intros d clients res [[-> ->]|Hin]%Map_set_elem Hres; [|eauto].
      apply Set_add_elem in Hres as [->|Hres]; eauto.
  - rewrite Map_get_set.
    assert (NoDup (Map_keys (Map_set device [] (sseByDevice st)))) as Hkeys
      by (by apply Map_set_keys_NoDup, (inv_sse_keys _ Hinv)).
    assert (∀ d clients,
              (d, clients) ∈ Map_set device (Set_add (length (responses st)) [])
                               (Map_set device [] (sseByDevice st)) →
              (d = device ∧ clients = [length (responses st)])
              ∨ (d, clients) ∈ sseByDevice st) as Hentries.
    { intros d clients [[-> ->]|[Hd Hin]]%(Map_set_elem_unique _ _ _ _ _ Hkeys); [auto|].
      apply Map_set_elem in Hin as [[-> _]|Hin]; [done|auto]. }
    split; simpl; auto.
    + intros d clients [[-> ->]|Hin]%Hentries; [discriminate|eauto].
    + intros d clients res [[-> ->]|Hin]%Hentries Hres; [|eauto].
      apply list_elem_of_singleton in Hres as ->. done.
Qed.
End RegistryFacts.

Section CloseFacts.
Context `{Runtime} `{Config}.

(** The entries of the registry after the [close] handler of [res]: the
    entries of other devices, as they were, and the set of the device of
    [res] without [res], unless it has become empty. *)
Lemma on_close_entries res st d c :
  invariant st → (d, c) ∈ sseByDevice (on_close res st) →
  ((d, c) ∈ sseByDevice st
   ∧ ∀ r, responses st !! res = Some r →
          is_Some (Map_get (res_device r) (sseByDevice st)) → d ≠ res_device r)
  ∨ (∃ r set, responses st !! res = Some r ∧ d = res_device r
              ∧ Map_get d (sseByDevice st) = Some set
              ∧ c = Set_delete res set ∧ c ≠ []).
Proof.
  intros Hinv. unfold on_close.
  destruct (responses st !! res) as [r|] eqn:Hr; [|intros Hin; left; split; [done|]; done].
  destruct (Map_get (res_device r) (sseByDevice st)) as [set|] eqn:Hset.
  - pose proof (inv_sse_keys _ Hinv) as Hkeys. simpl.
    destruct (length (Set_delete res set) =? 0)%nat eqn:Hlen.
    + intros [Hd Hin]%Map_delete_elem_unique; [|by apply Map_set_keys_NoDup].
      apply Map_set_elem in Hin as [[-> _]|Hin]; [done|].
      left. split; [done|]. intros r' Hr' _. congruence.
    + intros [[-> ->]|[Hd Hin]]%(Map_set_elem_unique _ _ _ _ _ Hkeys).
      * right. exists r, set. split_and!; auto.
        intros Hnil. rewrite Hnil in Hlen. discriminate.
      * left. split; [done|]. intros r' Hr' _. congruence.
  - intros Hin. left. split; [done|]. intros r' Hr' [x Hx]. congruence.
Qed.

Lemma on_close_frame res st :
  latestByDevice (on_close res st) = latestByDevice st
  ∧ responses (on_close res st) = responses st.
Proof.
  unfold on_close. destruct (responses st !! res); [|done].
  by destruct (Map_get _ _).
Qed.

Lemma registry_invariant_on_close res st :
  invariant st → registry_invariant st → registry_invariant (on_close res st).
Proof.
  intros Hinv [R1 R2 R3]. destruct (on_close_frame res st) as [Hlatest Hheap].
  split.
  - intros d c [[Hin _]|(r & set & _ & _ & _ & _ & Hne)]%on_close_entries; eauto.
  - intros d c x [[Hin _]|(r & set & _ & -> & Hset & -> & _)]%on_close_entries Hx;
      [| |done..]; rewrite Hheap; [eauto|].
    apply Set_delete_elem in Hx. apply Map_get_elem in Hset. eauto.
  - rewrite Hlatest. done.
Qed.

Lemma registry_invariant_handle ev st :
  invariant st → registry_invariant st → registry_invariant (handle ev st).
Proof.
  intros Hinv Hreg. destruct ev as [now topic payload|param|res|res]; simpl.
  - by apply registry_invariant_on_message.
  - by apply registry_invariant_api_stream.
  - destruct Hreg as [R1 R2 R3]. split; simpl; auto.
    intros d c x Hin Hx. destruct (R2 _ _ _ Hin Hx) as (r & Hr & Hd).
    rewrite list_lookup_alter. destruct (decide (res = x)) as [->|]; [|eauto].
    rewrite Hr. simpl. eauto.
  - by apply registry_invariant_on_close.
Qed.

Lemma reachable_registry st : reachable st → registry_invariant st.
Proof.
  induction 1 as [|ev st Hst IH]; [apply registry_invariant_initial|].
  apply registry_invariant_handle; [by apply reachable_invariant|done].
Qed.

(** A response that no set holds is in no set of another key either. *)
Lemma registered_once st d c res r :
  invariant st → registry_invariant st →
  (d, c) ∈ sseByDevice st → res ∈ c → responses st !! res = Some r →
  res_device r = d ∧ Map_get d (sseByDevice st) = Some c.
Proof.
  intros Hinv Hreg Hin Hres Hr.
  destruct (reg_device _ Hreg _ _ _ Hin Hres) as (r' & Hr' & Hd).
  split; [congruence|]. apply Map_get_elem_unique; [apply (inv_sse_keys _ Hinv)|done].
Qed.

Lemma on_close_unregisters res st :
  invariant st → registry_invariant st → unregistered res (on_close res st).
Proof.
  intros Hinv Hreg d c [[Hin Hother]|(r & set & Hr & -> & Hset & -> & _)]%on_close_entries Hres;
    [| |done].
  - destruct (reg_device _ Hreg _ _ _ Hin Hres) as (r & Hr & Hd).
    apply (Hother r Hr); [|done].
    rewrite Hd. rewrite (Map_get_elem_unique _ _ _ (inv_sse_keys _ Hinv) Hin). eauto.
  - apply Map_get_elem in Hset. destruct (inv_clients _ Hinv _ _ Hset) as [Hnd _].
    by apply (Set_delete_gone set res).
Qed.
End CloseFacts.

(** ** The token codec, further *)

Section TokenMore.
Context `{Runtime} `{Config}.

(** X1.  The tokens [verifyToken] accepts, exactly: a payload without a
    dot, a dot, and the code of that payload, itself without a dot; the
    payload decodes and parses to the object returned; and the [exp] of the
    object is truthy and not exceeded by the current time. *)
Theorem verifyToken_exactly_when (now : Z) (token : string) (obj : json) :
  verifyToken now token = Normal (Some obj)
  ↔ ∃ payload exp,
      token = payload +:+ "." +:+ hmac_sha256_base64url AUTH_SECRET payload
      ∧ occurs "." payload = false
      ∧ occurs "." (hmac_sha256_base64url AUTH_SECRET payload) = false
      ∧ JSON_parse (base64url_decode payload) = Normal obj
      ∧ get_property obj "exp" = Normal exp
      ∧ truthy exp = true
      ∧ js_gt now exp = false.
Proof.
  split.
  - intros (payload & sig & exp & Hsplit & -> & Hparse & Hexp & Htruthy & Hgt)%verifyToken_Some.
    exists payload, exp. split_and!; auto.
    + apply (split_two _ _ _ _ Hsplit).
    + apply (split_parts_clean "." token). rewrite Hsplit. left.
    + apply (split_parts_clean "." token). rewrite Hsplit. right. left.
  - intros (payload & exp & -> & Hp & Hs & Hparse & Hexp & Htruthy & Hgt).
    by apply (verifyToken_accepts now payload _ obj exp).
Qed.

(** X2.  A token whose object has a number as [exp], and that is accepted
    at some time, is accepted at every earlier time: a token is never
    refused first and accepted later. *)
Theorem verifyToken_earlier (now later : Z) (token : string) (obj : json) (e : Z) :
  verifyToken later token = Normal (Some obj) →
  get_property obj "exp" = Normal (Some (JNum e)) →
  now ≤ later →
  verifyToken now token = Normal (Some obj).
Proof.
  intros (payload & sig & exp & Hsplit & -> & Hparse & Hexp & Htruthy & Hgt)%verifyToken_Some
         He Hnow.
  rewrite Hexp in He. injection He as ->.
  rewrite (split_two _ _ _ _ Hsplit).
  apply (verifyToken_accepts now payload _ obj (Some (JNum e))); auto.
  - apply (split_parts_clean "." token). rewrite Hsplit. left.
  - apply (split_parts_clean "." token). rewrite Hsplit. right. left.
  - simpl in *. apply Z.ltb_ge. apply Z.ltb_ge in Hgt. lia.
Qed.

(** X3.  A payload under its own code is still refused when it cannot be
    used: when it does not parse, when it parses to [null] (the [TypeError]
    of [obj.exp] is caught), and when the [exp] of the object is missing or
    falsy, such as [0]. *)
Theorem signed_payload_without_expiry_refused (now : Z) (payload : string) :
  let token := payload +:+ "." +:+ hmac_sha256_base64url AUTH_SECRET payload in
  (∀ e, JSON_parse (base64url_decode payload) = Throw e →
        verifyToken now token = Normal None)
  ∧ (JSON_parse (base64url_decode payload) = Normal JNull →
     verifyToken now token = Normal None)
  ∧ (∀ props, JSON_parse (base64url_decode payload) = Normal (JObj props) →
              own_property "exp" props = undefined ∨ own_property "exp" props = Some (JNum 0) →
              verifyToken now token = Normal None).
Proof.
  cbv zeta.
  assert (∀ P : Prop,
            (∀ obj exp, JSON_parse (base64url_decode payload) = Normal obj →
                        get_property obj "exp" = Normal exp → truthy exp = true → P) →
            (∀ obj, verifyToken now (payload +:+ "." +:+
                                     hmac_sha256_base64url AUTH_SECRET payload)
                    = Normal (Some obj) → P)) as Hinv.
  { intros P HP obj (p & s & exp & Hsplit & _ & Hparse & Hexp & Htruthy & _)%verifyToken_Some.
    apply split_pair in Hsplit as [-> ->]. eauto. }
  split_and!.
  - intros e He.
    destruct (verifyToken_returns now (payload +:+ "." +:+
                hmac_sha256_base64url AUTH_SECRET payload)) as [[obj|] Hr]; [|done].
    exfalso. apply (Hinv False) in Hr; [done|]. intros obj' exp Hparse. congruence.
  - intros Hnull.
    destruct (verifyToken_returns now (payload +:+ "." +:+
                hmac_sha256_base64url AUTH_SECRET payload)) as [[obj|] Hr]; [|done].
    exfalso. apply (Hinv False) in Hr; [done|].
    intros obj' exp Hparse Hexp. rewrite Hnull in Hparse. injection Hparse as <-.
    discriminate.
  - intros props Hobj Hexp.
    destruct (verifyToken_returns now (payload +:+ "." +:+
                hmac_sha256_base64url AUTH_SECRET payload)) as [[obj|] Hr]; [|done].
    exfalso. apply (Hinv False) in Hr; [done|].
    intros obj' exp Hparse Hexp' Htruthy. rewrite Hobj in Hparse. injection Hparse as <-.
    simpl in Hexp'. injection Hexp' as <-.
    destruct Hexp as [Hexp|Hexp]; rewrite Hexp in Htruthy; discriminate.
Qed.

End TokenMore.

(** ** Cookies, login and logout *)

Section PagesFacts.
Context `{Runtime} `{Config} `{Web}.

Lemma getCookie_parts_skip name before parts :
  Forall (λ p, nth 0 (split "=" p) "" ≠ name) before →
  getCookie_parts name (before ++ parts) = getCookie_parts name parts.
Proof.
  induction 1 as [|p before Hp _ IH]; simpl; [done|].
  destruct (split "=" p) as [|k rest]; [done|].
  simpl in Hp. apply String.eqb_neq in Hp. by rewrite Hp.
Qed.

Lemma getCookie_parts_hit name v parts :
  occurs "=" name = false →
  getCookie_parts name ((name +:+ "=" +:+ v) :: parts) = decodeURIComponent v.
Proof.
  intros Hname. simpl.
  change (name +:+ "=" +:+ v) with (name +:+ String "=" v).
  rewrite split_append, (split_without _ _ Hname). simpl.
  rewrite String.eqb_refl. by rewrite Array_join_split.
Qed.

Lemma requireAuth_request_token now req token :
  getCookie req COOKIE_NAME = Some token →
  requireAuth_request now req
  = Some match verifyToken now token with
         | Normal (Some user) => Next user
         | _ => if String.prefix "/api/" (req_path req)
                then Unauthorized401 else RedirectLogin
         end.
Proof.
  intros Hcookie. unfold requireAuth_request, requireAuth. rewrite Hcookie.
  by destruct (verifyToken_returns now token) as [[user|] ->].
Qed.

(** X4.  The one exception that leaves [requireAuth] is that of
    [getCookie], when [decodeURIComponent] throws on the value of the
    session cookie: nothing after the cookie is read throws.  Once the
    cookie is read, a token that does not verify is rejected, by a 401
    under [/api/] and by a redirect to the login page elsewhere, and a
    token that verifies is let through with the object it carries.  Whether
    a request is let through, and whether [requireAuth] throws, depends on
    its cookies and the time, not on its path. *)
Theorem requireAuth_rejects_alike (now : Z) (req : request) :
  (requireAuth_request now req = None ↔ getCookie req COOKIE_NAME = None)
  ∧ (∀ token, getCookie req COOKIE_NAME = Some token →
       (verifyToken now token = Normal None
        ∧ requireAuth_request now req
          = Some (if String.prefix "/api/" (req_path req)
                  then Unauthorized401 else RedirectLogin))
       ∨ (∃ user, verifyToken now token = Normal (Some user)
                  ∧ requireAuth_request now req = Some (Next user)))
  ∧ (∀ path,
       let req' := {| req_cookie := req_cookie req; req_path := path |} in
       (requireAuth_request now req = None ↔ requireAuth_request now req' = None)
       ∧ ∀ user, requireAuth_request now req = Some (Next user)
                 ↔ requireAuth_request now req' = Some (Next user)).
Proof.
  split_and!.
  - destruct (getCookie req COOKIE_NAME) as [token|] eqn:Hcookie.
    + rewrite (requireAuth_request_token now req token Hcookie). split; discriminate.
    + unfold requireAuth_request. by rewrite Hcookie.
  - intros token Hcookie. rewrite (requireAuth_request_token now req token Hcookie).
    destruct (verifyToken_returns now token) as [[user|] ->]; [right|left]; eauto.
  - intros path. cbv zeta.
    assert (getCookie {| req_cookie := req_cookie req; req_path := path |} COOKIE_NAME
            = getCookie req COOKIE_NAME) as Hsame by reflexivity.
    destruct (getCookie req COOKIE_NAME) as [token|] eqn:Hcookie.
    + rewrite (requireAuth_request_token now req token Hcookie).
      rewrite (requireAuth_request_token now _ token Hsame).
      destruct (verifyToken_returns now token) as [[user|] ->]; cbn [req_path].
      * split; [split; discriminate|done].
      * split; [split; discriminate|].
        intros user. by destruct (String.prefix "/api/" (req_path req)),
                                 (String.prefix "/api/" path).
    + unfold requireAuth_request. rewrite Hsame, Hcookie. done.
Qed.

(** X5.  [getCookie] returns the decoded value of the first cookie of the
    header that bears the name: cookies of other names before it are
    skipped, whatever follows it is not looked at, and a value that itself
    contains [=] is taken whole.  When decoding that value throws,
    [getCookie] throws. *)
Theorem getCookie_first_named (req : request) (name v : string)
    (before after : list string) :
  occurs "=" name = false →
  map String_trim (split ";" (cookie_header req))
  = before ++ (name +:+ "=" +:+ v) :: after →
  Forall (λ p, nth 0 (split "=" p) "" ≠ name) before →
  getCookie req name = decodeURIComponent v.
Proof.
  intros Hname Hparts Hbefore. unfold getCookie. fold (cookie_header req).
  rewrite Hparts, (getCookie_parts_skip _ _ _ Hbefore).
  by apply getCookie_parts_hit.
Qed.

(** X6.  When no cookie of the header bears the name of the session
    cookie, [getCookie] returns the empty string without decoding
    anything, and [requireAuth] rejects the request: by a 401 under
    [/api/], by a redirect elsewhere. *)
Theorem request_without_cookie_rejected (now : Z) (req : request) :
  Forall (λ p, nth 0 (split "=" p) "" ≠ COOKIE_NAME)
         (map String_trim (split ";" (cookie_header req))) →
  getCookie req COOKIE_NAME = Some ""
  ∧ requireAuth_request now req
    = Some (if String.prefix "/api/" (req_path req) then Unauthorized401 else RedirectLogin).
Proof.
  intros Hparts.
  assert (getCookie req COOKIE_NAME = Some "") as Hcookie.
  { unfold getCookie. fold (cookie_header req).
    rewrite <- (app_nil_r (map _ _)). by rewrite (getCookie_parts_skip _ _ _ Hparts). }
  split; [done|]. by rewrite (requireAuth_request_token now req "" Hcookie).
Qed.

(** X7.  Login with the configured credentials redirects to [/] and sets a
    cookie.  A request that sends back the name and value of that cookie is
    let through by [requireAuth], as the user who logged in, at every time
    up to twelve hours after the login, and is rejected at every later
    time. *)
Theorem login_then_admitted (now later : Z) (user pass : jsval) (req : request) :
  0 ≤ now →
  String_or_empty user = DASH_USER →
  String_or_empty pass = DASH_PASS →
  round_trips (session DASH_USER (now + TWELVE_HOURS)) →
  cookie_carries (issue now DASH_USER TWELVE_HOURS) →
  req_cookie req
  = (λ header, nth 0 (split ";" header) "") <$> set_cookie (post_login now user pass) →
  location (post_login now user pass) = "/"
  ∧ (later ≤ now + TWELVE_HOURS →
     requireAuth_request later req
     = Some (Next (session DASH_USER (now + TWELVE_HOURS))))
  ∧ (now + TWELVE_HOURS < later →
     requireAuth_request later req
     = Some (if String.prefix "/api/" (req_path req)
             then Unauthorized401 else RedirectLogin)).
Proof.
  intros Hnow Huser Hpass (Hp & Hs & Hparse) (Hsemi & Htrim & Hdecode).
  unfold post_login. rewrite Huser, Hpass. unfold login. rewrite !String.eqb_refl.
  cbn [andb set_cookie location fmap option_fmap option_map].
  set (token := issue now DASH_USER TWELVE_HOURS) in *.
  set (pair := COOKIE_NAME +:+ "=" +:+ encodeURIComponent token) in *.
  assert (occurs ";" pair = false) as Hpair.
  { unfold pair. by rewrite !occurs_append, Hsemi. }
  change (COOKIE_NAME +:+ "=" +:+ encodeURIComponent token +:+ ?rest)
    with (pair +:+ String ";" " Path=/; HttpOnly; SameSite=Lax; Secure; Max-Age=43200").
  rewrite split_append, (split_without _ _ Hpair). cbn [app nth].
  intros Hreq.
  assert (getCookie req COOKIE_NAME = Some token) as Hcookie.
  { unfold getCookie. rewrite Hreq, (split_without _ _ Hpair). cbn [map].
    rewrite Htrim. unfold pair. rewrite getCookie_parts_hit by done. done. }
  rewrite !(requireAuth_request_token _ req token Hcookie).
  split; [done|]. unfold token, issue, signToken. split.
  - intros Hlater.
    rewrite (verifyToken_accepts later _ _ (session DASH_USER (now + TWELVE_HOURS))
               (Some (JNum (now + TWELVE_HOURS)))); auto.
    + simpl. apply negb_true_iff, Z.eqb_neq. unfold TWELVE_HOURS. lia.
    + simpl. apply Z.ltb_ge. lia.
  - intros Hlater.
    by rewrite (verifyToken_expired later _ _
                  (session DASH_USER (now + TWELVE_HOURS)) (now + TWELVE_HOURS)).
Qed.

(** X9.  The cookie [GET /logout] sets has an empty value.  A request that
    sends it back is rejected by [requireAuth], at any time. *)
Theorem logout_cookie_rejected (now : Z) (req : request) :
  String_trim (COOKIE_NAME +:+ "=") = COOKIE_NAME +:+ "=" →
  decodeURIComponent "" = Some "" →
  req_cookie req = (λ header, nth 0 (split ";" header) "") <$> set_cookie get_logout →
  location get_logout = "/login"
  ∧ getCookie req COOKIE_NAME = Some ""
  ∧ requireAuth_request now req
    = Some (if String.prefix "/api/" (req_path req) then Unauthorized401 else RedirectLogin).
Proof.
  intros Htrim Hdecode Hreq.
  assert (getCookie req COOKIE_NAME = Some "") as Hcookie.
  { assert (req_cookie req = Some (COOKIE_NAME +:+ "=")) as Hpair
      by (rewrite Hreq; reflexivity).
    unfold getCookie. rewrite Hpair.
    change (split ";" (COOKIE_NAME +:+ "=")) with [COOKIE_NAME +:+ "="]. cbn [map].
    rewrite Htrim. change (COOKIE_NAME +:+ "=") with (COOKIE_NAME +:+ "=" +:+ "").
    rewrite getCookie_parts_hit by done. exact Hdecode. }
  split_and!; [done|done|]. by rewrite (requireAuth_request_token now req "" Hcookie).
Qed.
End PagesFacts.

(** ** The store, the registry and the fan-out, further *)

Lemma Map_get_delete_other {V} (m : list (string * V)) k k' :
  k ≠ k' → Map_get k' (Map_delete k m) = Map_get k' m.
Proof.
  intros Hne. induction m as [|[k0 v0] m IH]; simpl; [done|].
  destruct (decide (k0 = k)) as [->|].
  - by rewrite decide_False.
  - simpl. by rewrite IH.
Qed.

Lemma Map_get_delete {V} (m : list (string * V)) k :
  NoDup (Map_keys m) → Map_get k (Map_delete k m) = None.
Proof.
  intros Hm. destruct (Map_get k (Map_delete k m)) as [v|] eqn:Hget; [|done].
  apply Map_get_elem, (Map_delete_elem_unique _ _ _ _ Hm) in Hget as [Hne _]. done.
Qed.

Section FanOutFacts.
Context `{Runtime} `{Config}.

Lemma push_writable event obj r : res_writable (push event obj r) = res_writable r.
Proof. unfold push, res_write. by destruct r as [d h w []]. Qed.

Lemma on_message_registry now topic payload st :
  sseByDevice (on_message now topic payload st) = sseByDevice st.
Proof.
  destruct (on_message_cases now topic payload st) as [->|(dev & Hdev & Hne)]; [done|].
  by rewrite (on_message_stored _ _ _ _ _ Hdev Hne).
Qed.

Lemma on_message_heap_length now topic payload st :
  length (responses (on_message now topic payload st)) = length (responses st).
Proof.
  destruct (on_message_cases now topic payload st) as [->|(dev & Hdev & Hne)]; [done|].
  rewrite (on_message_stored _ _ _ _ _ Hdev Hne). simpl.
  destruct (Map_get dev (sseByDevice st)); [apply deliver_length|done].
Qed.

(** A message leaves alone every response that is not registered. *)
Lemma on_message_unregistered now topic payload st res :
  invariant st → unregistered res st →
  responses (on_message now topic payload st) !! res = responses st !! res.
Proof.
  intros Hinv Hres.
  destruct (on_message_cases now topic payload st) as [->|(dev & Hdev & Hne)]; [done|].
  rewrite (on_message_stored _ _ _ _ _ Hdev Hne). simpl.
  destruct (Map_get dev (sseByDevice st)) as [clients|] eqn:Hclients; [|done].
  apply Map_get_elem in Hclients. destruct (inv_clients _ Hinv _ _ Hclients) as [Hnd _].
  rewrite deliver_lookup by done. rewrite bool_decide_false; [done|].
  by apply (Hres dev).
Qed.

(** A message is written once to every subscriber of its device. *)
Lemma on_message_registered now topic payload st device clients res :
  invariant st → getDeviceFromTopic topic = Some device → device ≠ "" →
  Map_get device (sseByDevice st) = Some clients → res ∈ clients →
  responses (on_message now topic payload st) !! res
  = push "telemetry" (telemetry_json (record_of now topic payload)) <$> responses st !! res.
Proof.
  intros Hinv Hdev Hne Hclients Hres.
  rewrite (on_message_stored _ _ _ _ _ Hdev Hne). simpl. rewrite Hclients.
  apply Map_get_elem in Hclients. destruct (inv_clients _ Hinv _ _ Hclients) as [Hnd _].
  rewrite deliver_lookup by done. by rewrite bool_decide_true.
Qed.

Lemma run_messages_in_order (ms : list (Z * string * string)) st device clients res r :
  invariant st →
  Forall (λ m, getDeviceFromTopic m.1.2 = Some device) ms → device ≠ "" →
  Map_get device (sseByDevice st) = Some clients → res ∈ clients →
  responses st !! res = Some r → res_writable r = true →
  received (run (messages ms) st) res
  = Some (res_written r
          ++ concat (map (λ m, sse_frame "telemetry"
                                 (telemetry_json (record_of m.1.1 m.1.2 m.2))) ms))
  ∧ ∀ m, last ms = Some m →
         Map_get device (latestByDevice (run (messages ms) st))
         = Some (record_of m.1.1 m.1.2 m.2).
Proof.
  unfold run, messages. intros Hinv Hms Hne. revert st r Hinv.
  induction Hms as [|[[now topic] payload] ms Hm Hms IH];
    intros st r Hinv Hclients Hres Hr Hw; cbn [map fold_left concat handle].
  - unfold received. rewrite Hr, app_nil_r. split; [done|]. intros m. discriminate.
  - cbn in Hm.
    pose proof (on_message_registered now topic payload st device clients res
                  Hinv Hm Hne Hclients Hres) as Hpush.
    rewrite Hr in Hpush. cbn in Hpush.
    destruct (IH (on_message now topic payload st)
                 (push "telemetry" (telemetry_json (record_of now topic payload)) r)
                 (invariant_on_message now topic payload st Hinv)) as [Hrec Hlast];
      [by rewrite on_message_registry|done|exact Hpush|by rewrite push_writable|].
    rewrite push_written, Hw, <- app_assoc in Hrec. split; [exact Hrec|].
    intros m Hm'. destruct ms as [|m' ms].
    + injection Hm' as <-. cbn [map fold_left].
      rewrite (on_message_stored _ _ _ _ _ Hm Hne). cbn. apply Map_get_set.
    + apply Hlast. exact Hm'.
Qed.

(** The predicate a closed subscriber keeps. *)
Lemma handle_closed ev st res :
  invariant st → unregistered res st → (res < length (responses st))%nat →
  unregistered res (handle ev st)
  ∧ (res < length (responses (handle ev st)))%nat
  ∧ received (handle ev st) res = received st res.
Proof.
  intros Hinv Hres Hlt. unfold received.
  destruct ev as [now topic payload|param|res'|res']; simpl.
  - split_and!.
    + unfold unregistered. by rewrite on_message_registry.
    + by rewrite on_message_heap_length.
    + by rewrite on_message_unregistered.
  - destruct (decide (String_trim param = "")) as [Hempty|Hne].
    { unfold api_stream. apply String.eqb_eq in Hempty. by rewrite Hempty. }
    rewrite (api_stream_opened _ _ Hne). cbv zeta. cbn [fst sseByDevice responses].
    split_and!.
    + intros d c Hin Hc.
      assert (∀ set, res ∈ Set_add (length (responses st)) set → res ∈ set) as Hadd.
      { intros set [->|?]%Set_add_elem; [lia|done]. }
      assert (∀ d c, (d, c) ∈ (if Map_has (String_trim param) (sseByDevice st)
                                then sseByDevice st
                                else Map_set (String_trim param) [] (sseByDevice st)) →
                     res ∉ c) as Hmid.
      { intros d' c'. destruct (Map_has _ _); [apply Hres|].
        intros [[_ ->]|Hin']%Map_set_elem; [intros Hx; inversion Hx|by apply (Hres d')]. }
      destruct (Map_get _ _) as [set|] eqn:Hset.
      * apply Map_set_elem in Hin as [[_ ->]|Hin]; [|by apply (Hmid d c)].
        apply Map_get_elem in Hset. apply (Hmid _ _ Hset). by apply Hadd.
      * by apply (Hmid d c).
    + rewrite sseSend_length, length_app. simpl. lia.
    + rewrite sseSend_lookup, decide_False by lia. by rewrite lookup_app_l.
  - split_and!; [done|by rewrite length_alter|].
    rewrite list_lookup_alter. destruct (decide (res' = res)) as [->|]; [|done].
    by destruct (responses st !! res).
  - destruct (on_close_frame res' st) as [_ Hheap]. rewrite Hheap. split_and!; [|done..].
    intros d c Hin. apply on_close_entries in Hin; [|done].
    destruct Hin as [[Hin _]|(r & set & _ & _ & Hset & -> & _)].
    + by apply (Hres d).
    + intros Hx%Set_delete_elem. apply Map_get_elem in Hset. by apply (Hres d set).
Qed.

Lemma run_closed evs st res :
  invariant st → unregistered res st → (res < length (responses st))%nat →
  received (run evs st) res = received st res.
Proof.
  unfold run. revert st. induction evs as [|ev evs IH]; intros st Hinv Hres Hlt; simpl.
  - done.
  - destruct (handle_closed ev st res Hinv Hres Hlt) as (Hres' & Hlt' & <-).
    apply IH; [by apply invariant_handle|done..].
Qed.

Lemma handle_keys ev st :
  ∃ later, Map_keys (latestByDevice (handle ev st)) = Map_keys (latestByDevice st) ++ later.
Proof.
  destruct ev as [now topic payload|param|res|res]; simpl.
  - destruct (on_message_cases now topic payload st) as [->|(dev & Hdev & Hne)].
    + exists []. by rewrite app_nil_r.
    + rewrite (on_message_stored _ _ _ _ _ Hdev Hne). simpl. rewrite Map_set_keys.
      case_bool_decide; [exists []; by rewrite app_nil_r|eauto].
  - exists []. rewrite app_nil_r. unfold api_stream.
    by destruct (String_trim param =? "")%string.
  - exists []. by rewrite app_nil_r.
  - exists []. rewrite app_nil_r. by destruct (on_close_frame res st) as [-> _].
Qed.

Lemma getDeviceFromTopic_built device rest :
  occurs "/" TOPIC_PREFIX = false → occurs "/" device = false →
  getDeviceFromTopic (TOPIC_PREFIX +:+ "/" +:+ device +:+ "/" +:+ rest) = Some device.
Proof.
  intros Hprefix Hdevice. apply getDeviceFromTopic_Some.
  change (TOPIC_PREFIX +:+ "/" +:+ device +:+ "/" +:+ rest)
    with (TOPIC_PREFIX +:+ String "/" (device +:+ String "/" rest)).
  rewrite !split_append, (split_without _ _ Hprefix), (split_without _ _ Hdevice).
  pose proof (split_nonempty "/" rest) as Hrest.
  destruct (split "/" rest); [done|]. simpl. split_and!; [lia|done|done].
Qed.
End FanOutFacts.

Section BridgeMore.
Context `{Runtime} `{Config}.

(** X10.  [GET /api/devices] lists the devices of the store in the order
    of their UTF-16 code units, each at or before all that follow it, and
    without repeats: exactly the devices that have a record, which are
    the devices [GET /api/state] lists. *)
Theorem api_devices_lists_known (connected : bool) (st : state) :
  reachable st →
  StronglySorted utf16_le (api_devices st)
  ∧ NoDup (api_devices st)
  ∧ ∀ device,
      (device ∈ api_devices st ↔ is_Some (Map_get device (latestByDevice st)))
      ∧ (device ∈ api_devices st ↔ device ∈ devices (api_state connected st)).
Proof.
  intros Hinv%reachable_invariant. unfold api_devices, api_state. cbn [devices].
  pose proof (merge_sort_Permutation utf16_le (Map_keys (latestByDevice st))) as Hperm.
  split_and!.
  - apply StronglySorted_merge_sort; apply _.
  - rewrite Hperm. apply (inv_latest_keys _ Hinv).
  - intros device. rewrite Hperm. split; [apply Map_get_keys|done].
Qed.

(** X11.  The store only grows, at its end: whatever happens, the devices
    [GET /api/state] listed are listed again, in the same places, followed
    by the devices that arrived since.  No device is ever forgotten. *)
Theorem known_devices_only_grow (connected : bool) (evs : list event) (st : state) :
  ∃ later,
    devices (api_state connected (run evs st))
    = devices (api_state connected st) ++ later
    ∧ ∀ device, is_Some (Map_get device (latestByDevice st)) →
                is_Some (Map_get device (latestByDevice (run evs st))).
Proof.
  unfold api_state, run. cbn [devices].
  assert (∃ later, Map_keys (latestByDevice (fold_left (λ st ev, handle ev st) evs st))
                   = Map_keys (latestByDevice st) ++ later) as [later Hlater].
  { revert st. induction evs as [|ev evs IH]; intros st; simpl.
    - exists []. by rewrite app_nil_r.
    - destruct (IH (handle ev st)) as [later ->].
      destruct (handle_keys ev st) as [mid ->].
      exists (mid ++ later). by rewrite app_assoc. }
  exists later. split; [done|].
  intros device Hknown. apply Map_get_keys. rewrite Hlater.
  apply elem_of_app. left. by apply Map_get_keys.
Qed.

(** X12.  A device of the store is one level of a topic: it is not empty
    and has no slash.  So a stream requested under a name with a slash
    finds no record. *)
Theorem known_devices_are_single_levels (st : state) (device : string) :
  reachable st →
  (is_Some (Map_get device (latestByDevice st)) → device ≠ "" ∧ occurs "/" device = false)
  ∧ (occurs "/" device = true → Map_get device (latestByDevice st) = None).
Proof.
  intros Hst. pose proof (reachable_invariant _ Hst) as Hinv.
  pose proof (reachable_registry _ Hst) as Hreg.
  assert (is_Some (Map_get device (latestByDevice st)) →
          device ≠ "" ∧ occurs "/" device = false) as Hknown.
  { intros Hsome%Map_get_keys. split.
    - intros ->. by apply (inv_latest_named _ Hinv).
    - by apply (reg_single_level _ Hreg). }
  split; [done|]. intros Hslash.
  destruct (Map_get device (latestByDevice st)) eqn:Hget; [|done].
  destruct Hknown as [_ Hclean]; [eauto|congruence].
Qed.

(** X13.  The registry is well formed in every state the process can
    reach: a device that has an entry has at least one subscriber, none
    twice; every subscriber is a response of the heap, opened for that
    device; and no response is registered for two devices. *)
Theorem registry_well_formed (st : state) :
  reachable st →
  (∀ device clients,
     Map_get device (sseByDevice st) = Some clients →
     clients ≠ [] ∧ NoDup clients
     ∧ ∀ res, res ∈ clients →
              ∃ r, responses st !! res = Some r ∧ res_device r = device)
  ∧ ∀ device device' clients clients' res,
      Map_get device (sseByDevice st) = Some clients →
      Map_get device' (sseByDevice st) = Some clients' →
      res ∈ clients → res ∈ clients' → device = device'.
Proof.
  intros Hst. pose proof (reachable_invariant _ Hst) as Hinv.
  pose proof (reachable_registry _ Hst) as Hreg. split.
  - intros device clients Hclients%Map_get_elem. split_and!.
    + by apply (reg_inhabited _ Hreg device).
    + by apply (inv_clients _ Hinv device).
    + intros res Hres. by apply (reg_device _ Hreg device clients).
  - intros device device' clients clients' res Hc%Map_get_elem Hc'%Map_get_elem Hres Hres'.
    destruct (reg_device _ Hreg _ _ _ Hc Hres) as (r & Hr & <-).
    destruct (reg_device _ Hreg _ _ _ Hc' Hres') as (r' & Hr' & <-).
    congruence.
Qed.

(** X14.  The [close] handler of a request takes its response out of the
    registry, and changes nothing else: the store and the heap are as they
    were, every other subscriber is still registered for its device, and
    the entry of a device whose only subscriber it was is removed. *)
Theorem close_unsubscribes (st : state) (res : nat) :
  reachable st →
  unregistered res (on_close res st)
  ∧ latestByDevice (on_close res st) = latestByDevice st
  ∧ responses (on_close res st) = responses st
  ∧ (∀ device clients other,
       Map_get device (sseByDevice st) = Some clients → other ∈ clients → other ≠ res →
       ∃ clients', Map_get device (sseByDevice (on_close res st)) = Some clients'
                   ∧ other ∈ clients')
  ∧ (∀ r, responses st !! res = Some r →
          Map_get (res_device r) (sseByDevice st) = Some [res] →
          Map_get (res_device r) (sseByDevice (on_close res st)) = None).
Proof.
  intros Hst. pose proof (reachable_invariant _ Hst) as Hinv.
  pose proof (reachable_registry _ Hst) as Hreg.
  destruct (on_close_frame res st) as [Hlatest Hheap].
  split_and!; [by apply on_close_unregisters|done|done| |].
  - intros device clients other Hclients Hother Hne. unfold on_close.
    destruct (responses st !! res) as [r|]; [|eauto].
    destruct (Map_get (res_device r) (sseByDevice st)) as [set|] eqn:Hset; [|eauto].
    simpl. destruct (decide (res_device r = device)) as [Hd|Hd].
    + rewrite Hd in *. rewrite Hclients in Hset. injection Hset as <-.
      pose proof (Set_delete_other clients res other Hother Hne) as Hkept.
      destruct (Set_delete res clients) as [|x xs] eqn:Hdel; [inversion Hkept|].
      simpl. rewrite Map_get_set. eauto.
    + exists clients. split; [|done].
      destruct (length _ =? 0)%nat.
      * rewrite Map_get_delete_other, Map_get_set_other by done. done.
      * by rewrite Map_get_set_other.
  - intros r Hr Hset. unfold on_close. rewrite Hr, Hset. simpl.
    rewrite decide_True by done. simpl.
    apply Map_get_delete. apply Map_set_keys_NoDup, (inv_sse_keys _ Hinv).
Qed.

(** X15.  Once the [close] handler of a request has run, nothing is ever
    written to its response again, whatever messages, requests and
    closes follow. *)
Theorem closed_subscriber_never_written (st : state) (res : nat) (evs : list event) :
  reachable st → (res < length (responses st))%nat →
  received (run evs (on_close res st)) res = received st res.
Proof.
  intros Hst Hlt. pose proof (reachable_invariant _ Hst) as Hinv.
  pose proof (reachable_registry _ Hst) as Hreg.
  destruct (on_close_frame res st) as [_ Hheap].
  rewrite run_closed.
  - unfold received. by rewrite Hheap.
  - by apply invariant_on_close.
  - by apply on_close_unregisters.
  - by rewrite Hheap.
Qed.

(** X16.  A message of one device touches no other device: the record of
    every other device is as it was, and so is every response registered
    for another device. *)
Theorem message_stays_with_its_device (st : state) (now : Z)
    (topic payload device other : string) :
  reachable st →
  getDeviceFromTopic topic = Some device → other ≠ device →
  Map_get other (latestByDevice (on_message now topic payload st))
  = Map_get other (latestByDevice st)
  ∧ ∀ clients res,
      Map_get other (sseByDevice st) = Some clients → res ∈ clients →
      responses (on_message now topic payload st) !! res = responses st !! res.
Proof.
  intros Hst Hdev Hother. pose proof (reachable_invariant _ Hst) as Hinv.
  pose proof (reachable_registry _ Hst) as Hreg.
  destruct (decide (device = "")) as [->|Hne].
  { rewrite on_message_dropped by auto. done. }
  rewrite (on_message_stored _ _ _ _ _ Hdev Hne). simpl. split.
  - by apply Map_get_set_other.
  - intros clients res Hclients%Map_get_elem Hres.
    destruct (Map_get device (sseByDevice st)) as [mine|] eqn:Hmine; [|done].
    apply Map_get_elem in Hmine. destruct (inv_clients _ Hinv _ _ Hmine) as [Hnd _].
    rewrite deliver_lookup by done. rewrite bool_decide_false; [done|].
    intros Hin.
    destruct (reg_device _ Hreg _ _ _ Hclients Hres) as (r & Hr & <-).
    destruct (reg_device _ Hreg _ _ _ Hmine Hin) as (r' & Hr' & <-).
    congruence.
Qed.

(** X17.  A subscriber of a device whose channel takes the writes receives
    the records of a run of messages of that device one event each, in the
    order the messages were processed; and the record stored at the end is
    that of the last message. *)
Theorem delivery_in_order (st : state) (ms : list (Z * string * string))
    (device : string) (clients : list nat) (res : nat) (r : response) :
  reachable st →
  Forall (λ m, getDeviceFromTopic m.1.2 = Some device) ms → device ≠ "" →
  Map_get device (sseByDevice st) = Some clients → res ∈ clients →
  responses st !! res = Some r → res_writable r = true →
  received (run (messages ms) st) res
  = Some (res_written r
          ++ concat (map (λ m, sse_frame "telemetry"
                                 (telemetry_json (record_of m.1.1 m.1.2 m.2))) ms))
  ∧ ∀ m, last ms = Some m →
         Map_get device (latestByDevice (run (messages ms) st))
         = Some (record_of m.1.1 m.1.2 m.2).
Proof.
  intros Hst%reachable_invariant. by apply run_messages_in_order.
Qed.

(** X18.  With a prefix and a device that have no slash, every topic made
    of the prefix, the device and anything after them is read as a topic of
    that device: the telemetry topic, and as well the command topic, for
    the third segment is not looked at. *)
Theorem topics_of_a_device (device rest : string) :
  occurs "/" TOPIC_PREFIX = false → occurs "/" device = false →
  getDeviceFromTopic (TOPIC_PREFIX +:+ "/" +:+ device +:+ "/" +:+ rest) = Some device
  ∧ getDeviceFromTopic (TOPIC_PREFIX +:+ "/" +:+ device +:+ "/telemetry") = Some device
  ∧ getDeviceFromTopic (TOPIC_PREFIX +:+ "/" +:+ device +:+ "/cmd") = Some device.
Proof.
  intros Hprefix Hdevice. split_and!.
  - by apply getDeviceFromTopic_built.
  - by apply (getDeviceFromTopic_built device "telemetry").
  - by apply (getDeviceFromTopic_built device "cmd").
Qed.

(** X19.  With a prefix that contains a slash no topic matches: every
    message is discarded. *)
Theorem prefix_with_slash_matches_nothing (st : state) (now : Z) (topic payload : string) :
  occurs "/" TOPIC_PREFIX = true →
  getDeviceFromTopic topic = None
  ∧ on_message now topic payload st = st.
Proof.
  intros Hprefix.
  assert (getDeviceFromTopic topic = None) as Hnone.
  { destruct (getDeviceFromTopic topic) as [device|] eqn:Hdev; [|done].
    apply getDeviceFromTopic_Some in Hdev as (Hlen & Hfirst & _).
    assert (occurs "/" (nth 0 (split "/" topic) "") = false) as Hclean
      by (apply (split_parts_clean "/" topic), nth_split_elem; lia).
    congruence. }
  split; [done|]. apply on_message_dropped. auto.
Qed.

(** X20.  A command for a blank device publishes nothing and is answered
    400.  Any other command publishes one message, not retained, at QoS 1,
    on the command topic of the trimmed device; the reply is a 500 when the
    publication fails and otherwise names the topic, which (without
    slashes in prefix and device) reads back as a topic of the device. *)
Theorem command_published_once (param : string) (body : jsval) (failed : bool) :
  (String_trim param = "" →
   api_cmd param body failed
   = (None, ReplyJson 400 (JObj [("error", JStr "device required")])))
  ∧ (String_trim param ≠ "" →
     ∃ pub,
       fst (api_cmd param body failed) = Some pub
       ∧ pub_topic pub = TOPIC_PREFIX +:+ "/" +:+ String_trim param +:+ "/cmd"
       ∧ pub_retain pub = false ∧ pub_qos pub = 1%nat
       ∧ snd (api_cmd param body failed)
         = (if failed
            then ReplyJson 500 (JObj [("ok", JBool false); ("error", JStr "publish_failed")])
            else ReplyJson 200 (JObj [("ok", JBool true); ("topic", JStr (pub_topic pub))]))
       ∧ (occurs "/" TOPIC_PREFIX = false → occurs "/" (String_trim param) = false →
          getDeviceFromTopic (pub_topic pub) = Some (String_trim param))).
Proof.
  unfold api_cmd. split.
  - intros Hblank%String.eqb_eq. by rewrite Hblank.
  - intros Hnamed%String.eqb_neq. rewrite Hnamed. eexists. cbn [fst snd].
    split_and!; try reflexivity.
    intros Hprefix Hdevice. by apply (getDeviceFromTopic_built _ "cmd").
Qed.

(** X21.  A request for a stream with a blank device is answered 400 and
    changes nothing.  Any other request is registered after the
    subscribers its device already has, and disturbs nothing else: the
    store, the responses that exist and the entries of the other devices
    are as they were. *)
Theorem subscribe_disturbs_nothing (st : state) (param : string) :
  reachable st →
  (String_trim param = "" →
   api_stream param st = (st, ReplyJson 400 (JObj [("error", JStr "device required")])))
  ∧ (String_trim param ≠ "" →
     let st' := fst (api_stream param st) in
     let device := String_trim param in
     latestByDevice st' = latestByDevice st
     ∧ (∀ res r, responses st !! res = Some r → responses st' !! res = Some r)
     ∧ Map_get device (sseByDevice st')
       = Some (default [] (Map_get device (sseByDevice st)) ++ [length (responses st)])
     ∧ ∀ other, other ≠ device →
                Map_get other (sseByDevice st') = Map_get other (sseByDevice st)).
Proof.
  intros Hinv%reachable_invariant. split.
  - intros Hblank%String.eqb_eq. unfold api_stream. by rewrite Hblank.
  - intros Hnamed. rewrite (api_stream_opened _ _ Hnamed). cbv zeta. cbn [fst].
    cbn [latestByDevice responses sseByDevice]. split_and!.
    + done.
    + intros res r Hr. pose proof (lookup_lt_Some _ _ _ Hr) as Hlt.
      rewrite sseSend_lookup, decide_False by lia. by rewrite lookup_app_l.
    + unfold Map_has.
      destruct (Map_get (String_trim param) (sseByDevice st)) as [set|] eqn:Hset.
      * rewrite Hset, Map_get_set. simpl. f_equal.
        unfold Set_add, Set_has. rewrite bool_decide_false; [done|].
        intros Hin. apply Map_get_elem in Hset.
        destruct (inv_clients _ Hinv _ _ Hset) as [_ Hlt]. specialize (Hlt _ Hin). lia.
      * rewrite Map_get_set, Map_get_set. done.
    + intros other Hother. unfold Map_has.
      destruct (Map_get (String_trim param) (sseByDevice st)) as [set|] eqn:Hset.
      * rewrite Hset. by rewrite Map_get_set_other.
      * rewrite Map_get_set. by rewrite !Map_get_set_other.
Qed.
End BridgeMore.

(** ** More of the program, on Node *)

Section OnNodeMore.
#[local] Existing Instance Node.runtime.
#[local] Existing Instance Node.defaults.
#[local] Existing Instance NodeWeb.web.

Lemma verifyToken_earlier_witness :
  verifyToken 1000 Sample.token = Normal (Some (session "admin" 1000))
  ∧ 5 ≤ 1000
  ∧ verifyToken 5 Sample.token = Normal (Some (session "admin" 1000)).
Proof.
  assert (verifyToken 1000 Sample.token = Normal (Some (session "admin" 1000))) as Hlater
    by by_running.
  assert (5 ≤ 1000) as Hle by lia.
  split_and!; [exact Hlater|exact Hle|].
  exact (verifyToken_earlier 5 1000 Sample.token (session "admin" 1000) 1000
           Hlater eq_refl Hle).
Defined.

Lemma signed_payload_without_expiry_refused_witness :
  JSON_parse (base64url_decode (b64url (JSON_stringify (JObj [("u", JStr "admin")]))))
  = Normal (JObj [("u", JStr "admin")])
  ∧ verifyToken 5 (signToken (JObj [("u", JStr "admin")])) = Normal None
  ∧ verifyToken 5 (signToken JNull) = Normal None.
Proof.
  destruct (signed_payload_without_expiry_refused 5
              (b64url (JSON_stringify (JObj [("u", JStr "admin")])))) as (_ & _ & Hmissing).
  destruct (signed_payload_without_expiry_refused 5 (b64url (JSON_stringify JNull)))
    as (_ & Hnull & _).
  assert (JSON_parse (base64url_decode (b64url (JSON_stringify (JObj [("u", JStr "admin")]))))
          = Normal (JObj [("u", JStr "admin")])) as Hparse by by_running.
  split_and!; [exact Hparse| |].
  - apply (Hmissing [("u", JStr "admin")] Hparse). left. reflexivity.
  - apply Hnull. by_running.
Defined.

Lemma getCookie_first_named_witness :
  map String_trim (split ";" (cookie_header SampleMore.three_cookies))
  = ["a=1"] ++ ("auth" +:+ "=" +:+ "x%3Dy=z") :: ["auth=w"]
  ∧ getCookie SampleMore.three_cookies "auth" = Some "x=y=z".
Proof.
  assert (map String_trim (split ";" (cookie_header SampleMore.three_cookies))
          = ["a=1"] ++ ("auth" +:+ "=" +:+ "x%3Dy=z") :: ["auth=w"]) as Hparts
    by by_running.
  split; [exact Hparts|].
  rewrite (getCookie_first_named SampleMore.three_cookies "auth" "x%3Dy=z"
             ["a=1"] ["auth=w"] eq_refl Hparts).
  - by_running.
  - repeat constructor. vm_compute. discriminate.
Defined.

Lemma request_without_cookie_rejected_witness :
  Forall (λ p, nth 0 (split "=" p) "" ≠ COOKIE_NAME)
         (map String_trim (split ";" (cookie_header SampleMore.no_cookie)))
  ∧ requireAuth_request 5 SampleMore.no_cookie = Some RedirectLogin.
Proof.
  assert (Forall (λ p, nth 0 (split "=" p) "" ≠ COOKIE_NAME)
            (map String_trim (split ";" (cookie_header SampleMore.no_cookie)))) as Hnone.
  { repeat constructor. vm_compute. discriminate. }
  split; [exact Hnone|].
  exact (proj2 (request_without_cookie_rejected 5 SampleMore.no_cookie Hnone)).
Defined.

Lemma login_round_trips : round_trips (session DASH_USER (1000 + TWELVE_HOURS)).
Proof. unfold round_trips. split_and!; by_running. Qed.

Lemma login_cookie_carries : cookie_carries (issue 1000 DASH_USER TWELVE_HOURS).
Proof. unfold cookie_carries. split_and!; by_running. Qed.

Lemma login_then_admitted_witness :
  0 ≤ 1000
  ∧ String_or_empty (Some (JStr "admin")) = DASH_USER
  ∧ String_or_empty (Some (JStr "admin123")) = DASH_PASS
  ∧ requireAuth_request (1000 + TWELVE_HOURS)
      {| req_cookie := Some ("auth=" +:+ issue 1000 "admin" TWELVE_HOURS);
         req_path := "/api/devices" |}
    = Some (Next (session "admin" (1000 + TWELVE_HOURS)))
  ∧ requireAuth_request (1001 + TWELVE_HOURS)
      {| req_cookie := Some ("auth=" +:+ issue 1000 "admin" TWELVE_HOURS);
         req_path := "/api/devices" |}
    = Some Unauthorized401.
Proof.
  assert (0 ≤ 1000) as Hnow by lia.
  pose proof (login_then_admitted 1000 (1000 + TWELVE_HOURS)
                (Some (JStr "admin")) (Some (JStr "admin123"))
                {| req_cookie := Some ("auth=" +:+ issue 1000 "admin" TWELVE_HOURS);
                   req_path := "/api/devices" |}
                Hnow eq_refl eq_refl login_round_trips login_cookie_carries) as Hin.
  pose proof (login_then_admitted 1000 (1001 + TWELVE_HOURS)
                (Some (JStr "admin")) (Some (JStr "admin123"))
                {| req_cookie := Some ("auth=" +:+ issue 1000 "admin" TWELVE_HOURS);
                   req_path := "/api/devices" |}
                Hnow eq_refl eq_refl login_round_trips login_cookie_carries) as Hout.
  split_and!; [exact Hnow|reflexivity|reflexivity| |].
  - destruct Hin as (_ & Hin & _); [by_running|]. apply Hin. lia.
  - destruct Hout as (_ & _ & Hout); [by_running|]. apply Hout. lia.
Defined.

Lemma logout_cookie_rejected_witness :
  String_trim (COOKIE_NAME +:+ "=") = COOKIE_NAME +:+ "="
  ∧ decodeURIComponent "" = Some ""
  ∧ requireAuth_request 5 {| req_cookie := Some "auth="; req_path := "/api/state" |}
    = Some Unauthorized401.
Proof.
  assert (String_trim (COOKIE_NAME +:+ "=") = COOKIE_NAME +:+ "=") as Htrim by by_running.
  assert (decodeURIComponent "" = Some "") as Hdecode by by_running.
  split_and!; [exact Htrim|exact Hdecode|].
  exact (proj2 (proj2 (logout_cookie_rejected 5
                         {| req_cookie := Some "auth="; req_path := "/api/state" |}
                         Htrim Hdecode eq_refl))).
Defined.

(** U+1F600 is listed before U+FF5E, as its first code unit, D83D, is
    below FF5E; its first byte, F0, is above EF. *)
Lemma api_devices_lists_known_witness :
  reachable Sample.tilde_then_face
  ∧ StronglySorted utf16_le (api_devices Sample.tilde_then_face)
  ∧ NoDup (api_devices Sample.tilde_then_face)
  ∧ devices (api_state true Sample.tilde_then_face)
    = [Sample.fullwidth_tilde; Sample.grinning_face]
  ∧ api_devices Sample.tilde_then_face = [Sample.grinning_face; Sample.fullwidth_tilde]
  ∧ code_units Sample.fullwidth_tilde = [65374]
  ∧ code_units Sample.grinning_face = [55357; 56832].
Proof.
  pose proof (sample_reachable
                [Message 1 ("embarcatech/" +:+ Sample.fullwidth_tilde +:+ "/telemetry") "1";
                 Message 2 ("embarcatech/" +:+ Sample.grinning_face +:+ "/telemetry") "2"])
    as Hst.
  destruct (api_devices_lists_known true Sample.tilde_then_face Hst)
    as (Hsorted & Hnodup & _).
  split_and!; [exact Hst|exact Hsorted|exact Hnodup|by_running..].
Defined.

Lemma requireAuth_rejects_alike_witness :
  getCookie {| req_cookie := Some "auth=%"; req_path := "/api/devices" |} COOKIE_NAME
  = None
  ∧ requireAuth_request 5 {| req_cookie := Some "auth=%"; req_path := "/api/devices" |}
    = None
  ∧ requireAuth_request 5 {| req_cookie := Some "auth=%"; req_path := "/" |} = None.
Proof.
  destruct (requireAuth_rejects_alike 5
              {| req_cookie := Some "auth=%"; req_path := "/api/devices" |})
    as (Hthrows & _ & Hpath).
  assert (getCookie {| req_cookie := Some "auth=%"; req_path := "/api/devices" |}
            COOKIE_NAME = None) as Hcookie by by_running.
  split_and!; [exact Hcookie|by apply Hthrows|].
  apply (Hpath "/"). by apply Hthrows.
Defined.

Lemma known_devices_are_single_levels_witness :
  reachable Sample.one_record
  ∧ occurs "/" "sensor1/x" = true
  ∧ Map_get "sensor1/x" (latestByDevice Sample.one_record) = None.
Proof.
  pose proof (sample_reachable [Message 5 "embarcatech/sensor1/telemetry" "[21,5]"])
    as Hst.
  split_and!; [exact Hst|reflexivity|].
  apply (known_devices_are_single_levels Sample.one_record "sensor1/x" Hst). reflexivity.
Defined.

Lemma registry_well_formed_witness :
  reachable Sample.lost_subscriber
  ∧ Map_get "sensor1" (sseByDevice Sample.lost_subscriber) = Some [0%nat; 1%nat]
  ∧ ∃ r, responses Sample.lost_subscriber !! 1%nat = Some r ∧ res_device r = "sensor1".
Proof.
  pose proof (sample_reachable
                [Subscribe "sensor1"; Subscribe "sensor1"; ConnectionLost 0]) as Hst.
  assert (Map_get "sensor1" (sseByDevice Sample.lost_subscriber) = Some [0%nat; 1%nat])
    as Hclients by by_running.
  split_and!; [exact Hst|exact Hclients|].
  destruct (registry_well_formed Sample.lost_subscriber Hst) as [Hwf _].
  destruct (Hwf "sensor1" [0%nat; 1%nat] Hclients) as (_ & _ & Hres).
  apply Hres. apply list_elem_of_In. simpl. auto.
Defined.

Lemma close_unsubscribes_witness :
  reachable Sample.lost_subscriber
  ∧ unregistered 0 (on_close 0 Sample.lost_subscriber)
  ∧ Map_get "sensor1" (sseByDevice (on_close 0 Sample.lost_subscriber)) = Some [1%nat].
Proof.
  pose proof (sample_reachable
                [Subscribe "sensor1"; Subscribe "sensor1"; ConnectionLost 0]) as Hst.
  destruct (close_unsubscribes Sample.lost_subscriber 0 Hst) as (Hgone & _).
  split_and!; [exact Hst|exact Hgone|by_running].
Defined.

Lemma closed_subscriber_never_written_witness :
  reachable Sample.one_record
  ∧ (0 < length (responses (run [Subscribe "sensor1"] Sample.one_record)))%nat
  ∧ received (run [Message 8 "embarcatech/sensor1/telemetry" "[22]"; Subscribe "sensor1";
                   Message 9 "embarcatech/sensor1/telemetry" "[23]"]
                (on_close 0 (run [Subscribe "sensor1"] Sample.one_record))) 0
    = received (run [Subscribe "sensor1"] Sample.one_record) 0.
Proof.
  pose proof (sample_reachable [Message 5 "embarcatech/sensor1/telemetry" "[21,5]";
                                Subscribe "sensor1"]) as Hst.
  assert (0 < length (responses (run [Subscribe "sensor1"] Sample.one_record)))%nat as Hlt
    by (vm_compute; lia).
  split_and!; [apply sample_reachable|exact Hlt|].
  exact (closed_subscriber_never_written
           (run [Subscribe "sensor1"] Sample.one_record) 0
           [Message 8 "embarcatech/sensor1/telemetry" "[22]"; Subscribe "sensor1";
            Message 9 "embarcatech/sensor1/telemetry" "[23]"] Hst Hlt).
Defined.

Lemma message_stays_with_its_device_witness :
  reachable Sample.lost_subscriber
  ∧ getDeviceFromTopic "embarcatech/sensor2/telemetry" = Some "sensor2"
  ∧ responses (on_message 9 "embarcatech/sensor2/telemetry" "[21,5]" Sample.lost_subscriber)
      !! 1%nat
    = responses Sample.lost_subscriber !! 1%nat.
Proof.
  pose proof (sample_reachable
                [Subscribe "sensor1"; Subscribe "sensor1"; ConnectionLost 0]) as Hst.
  assert (getDeviceFromTopic "embarcatech/sensor2/telemetry" = Some "sensor2") as Hdev
    by by_running.
  assert ("sensor1" ≠ "sensor2") as Hother by discriminate.
  split_and!; [exact Hst|exact Hdev|].
  destruct (message_stays_with_its_device Sample.lost_subscriber 9
              "embarcatech/sensor2/telemetry" "[21,5]" "sensor2" "sensor1"
              Hst Hdev Hother) as [_ Hsame].
  apply (Hsame [0%nat; 1%nat]); [by_running|].
  apply list_elem_of_In. simpl. auto.
Defined.

Lemma delivery_in_order_witness :
  reachable Sample.lost_subscriber
  ∧ Forall (λ m, getDeviceFromTopic m.1.2 = Some "sensor1") SampleMore.two_messages
  ∧ ∃ r, responses Sample.lost_subscriber !! 1%nat = Some r
         ∧ res_writable r = true
         ∧ received (run (messages SampleMore.two_messages) Sample.lost_subscriber) 1
           = Some (res_written r
                   ++ sse_frame "telemetry"
                        (telemetry_json (record_of 8 "embarcatech/sensor1/telemetry" "[21,5]"))
                   ++ sse_frame "telemetry"
                        (telemetry_json
                           (record_of 9 "embarcatech/sensor1/telemetry" "not json"))).
Proof.
  pose proof (sample_reachable
                [Subscribe "sensor1"; Subscribe "sensor1"; ConnectionLost 0]) as Hst.
  assert (Forall (λ m, getDeviceFromTopic m.1.2 = Some "sensor1") SampleMore.two_messages)
    as Hms by (repeat constructor).
  assert (∃ r, responses Sample.lost_subscriber !! 1%nat = Some r
               ∧ res_writable r = true) as (r & Hr & Hw).
  { eexists. split; [vm_compute; reflexivity|reflexivity]. }
  assert ("sensor1" ≠ "") as Hnamed by discriminate.
  assert (Map_get "sensor1" (sseByDevice Sample.lost_subscriber) = Some [0%nat; 1%nat])
    as Hclients by by_running.
  assert (1%nat ∈ [0%nat; 1%nat]) as Hin by (apply list_elem_of_In; simpl; auto).
  split_and!; [exact Hst|exact Hms|]. exists r. split_and!; [exact Hr|exact Hw|].
  destruct (delivery_in_order Sample.lost_subscriber SampleMore.two_messages "sensor1"
              [0%nat; 1%nat] 1%nat r Hst Hms Hnamed Hclients Hin Hr Hw) as [Hreceived _].
  rewrite Hreceived. cbn [map concat SampleMore.two_messages fst snd].
  by rewrite app_nil_r.
Defined.

Lemma topics_of_a_device_witness :
  occurs "/" TOPIC_PREFIX = false
  ∧ occurs "/" "pico1" = false
  ∧ getDeviceFromTopic "embarcatech/pico1/cmd" = Some "pico1".
Proof.
  split_and!; [reflexivity|reflexivity|].
  exact (proj2 (proj2 (topics_of_a_device "pico1" "" eq_refl eq_refl))).
Defined.

Lemma prefix_with_slash_matches_nothing_witness :
  occurs "/" (@TOPIC_PREFIX SampleMore.nested_prefix) = true
  ∧ @getDeviceFromTopic SampleMore.nested_prefix "home/lab/pico1/telemetry" = None.
Proof.
  split; [reflexivity|].
  exact (proj1 (@prefix_with_slash_matches_nothing Node.runtime SampleMore.nested_prefix
                  initial 0 "home/lab/pico1/telemetry" "" eq_refl)).
Defined.

Lemma subscribe_disturbs_nothing_witness :
  reachable Sample.lost_subscriber
  ∧ String_trim " sensor1" ≠ ""
  ∧ Map_get "sensor1" (sseByDevice (fst (api_stream " sensor1" Sample.lost_subscriber)))
    = Some [0%nat; 1%nat; 2%nat].
Proof.
  pose proof (sample_reachable
                [Subscribe "sensor1"; Subscribe "sensor1"; ConnectionLost 0]) as Hst.
  assert (String_trim " sensor1" ≠ "") as Hnamed by (vm_compute; discriminate).
  split_and!; [exact Hst|exact Hnamed|].
  destruct (subscribe_disturbs_nothing Sample.lost_subscriber " sensor1" Hst)
    as [_ Hopen].
  destruct (Hopen Hnamed) as (_ & _ & Hset & _). exact Hset.
Defined.
End OnNodeMore.
